(** * Offline recommendation pipeline: loader, engine and cache publisher

    A shallow embedding of [core/dataloader.py], [core/engine.py] and
    [main.py].  Python dictionaries are insertion-ordered association lists,
    pandas frames are lists of rows, the Redis key space is a finite map, and
    the calls into numpy, pandas, scipy and the ALS library are modelled by
    their behaviour.  A float is the rational it stands for: the power and
    the group sum of the loader are parameters of the model, with the
    rounding of [float64] and the summation of pandas as their instances;
    the sort of the popularity ranking is a parameter as well, with numpy's
    generic [argsort] as its instance. *)

From Stdlib Require Import ZArith QArith Qround Qcanon Lia Permutation Sorted.
From stdpp Require Import base numbers list option sorting strings pretty gmap.

Open Scope Z_scope.

(** ** Python dictionaries *)

Module PyDict.
Section dict.
Context {K V : Type} `{EqDecision K}.

(** A dict keeps its keys in insertion order; every key occurs once. *)
Definition dict : Type := list (K * V).

(** [d.get(k)] *)
Fixpoint get (d : dict) (k : K) : option V :=
  match d with
  | [] => None
  | (k', v) :: d' => if decide (k = k') then Some v else get d' k
  end.

(** [k in d] *)
Definition contains (d : dict) (k : K) : bool :=
  match get d k with Some _ => true | None => false end.

(** [d[k] = v]: an existing key keeps its position. *)
Fixpoint set (d : dict) (k : K) (v : V) : dict :=
  match d with
  | [] => [(k, v)]
  | (k', v') :: d' =>
      if decide (k = k') then (k', v) :: d' else (k', v') :: set d' k v
  end.

(** [{k: v for k, v in l}] *)
Definition of_items (l : list (K * V)) : dict :=
  foldl (λ d kv, set d kv.1 kv.2) [] l.

(** [d.items()] *)
Definition items (d : dict) : list (K * V) := d.

Definition keys (d : dict) : list K := d.*1.
Definition values (d : dict) : list V := d.*2.
End dict.
Global Arguments dict : clear implicits.
End PyDict.

Abbreviation dict := PyDict.dict.

(** [l[:n]] for a Python list and a Python int. *)
Definition py_slice_to {A} (l : list A) (n : Z) : list A :=
  if decide (0 ≤ n) then take (Z.to_nat n) l
  else take (length l - Z.to_nat (- n)) l.

(** [enumerate(l)] *)
Definition enumerate {A} (l : list A) : list (nat * A) := imap (λ i x, (i, x)) l.

(** ** Floats ([float64]) *)

(** A float that is a number is a rational, and an operation on floats
    gives the float nearest to the exact result, ties to the even mantissa
    (IEEE 754, binary64: 53 bits of mantissa, exponents from -1022; no
    overflow). *)

(** [n / d] to the nearest integer, ties to even; [0 < d]. *)
Definition round_half_even (n d : Z) : Z :=
  let f := n `div` d in
  let r := n `mod` d in
  if decide (2 * r < d) then f
  else if decide (d < 2 * r) then f + 1
  else if Z.even f then f else f + 1.

Definition binary64 (q : Qc) : Qc :=
  let n := Z.abs (Qnum q) in
  let d := Zpos (Qden q) in
  if decide (n = 0) then 0%Qc
  else
    (** the exponent [e] with [2^e ≤ n/d < 2^(e+1)] *)
    let e0 := Z.log2 n - Z.log2 d in
    let e := if decide (d * 2 ^ Z.max 0 e0 ≤ n * 2 ^ Z.max 0 (- e0))
             then e0 else e0 - 1 in
    (** the last place is [2^(e-52)], and [2^-1074] below the normal range *)
    let ulp := Z.max e (-1022) - 52 in
    let m := round_half_even (n * 2 ^ Z.max 0 (- ulp)) (d * 2 ^ Z.max 0 ulp) in
    let v := Q2Qc (inject_Z (m * 2 ^ Z.max 0 ulp) / inject_Z (2 ^ Z.max 0 (- ulp))) in
    if decide (Qnum q < 0) then (- v)%Qc else v.

(** pandas' sum of a group ([group_sum] of [_libs/groupby.pyx]): Kahan's
    compensated summation over the rows of the group, in row order. *)
Definition group_sum_step (acc : Qc * Qc) (val : Qc) : Qc * Qc :=
  let '(sumx, compensation) := acc in
  let y := binary64 (val - compensation) in
  let t := binary64 (sumx + y) in
  let compensation := binary64 (binary64 (t - sumx) - y) in
  (t, compensation).

Definition float_sum (l : list Qc) : Qc :=
  (foldl group_sum_step (0%Qc, 0%Qc) (binary64 <$> l)).1.

(** The sum that adds the floats one after the other. *)
Definition plain_sum (l : list Qc) : Qc :=
  foldl (λ s x, binary64 (s + x)) 0%Qc (binary64 <$> l).

(** [base ** exponent] for a whole exponent: the float nearest to the power
    of the float [base].  Between whole exponents, which no statement below
    uses, it is the power at the whole part. *)
Definition float_pow (base exponent : Qc) : Qc :=
  let b := binary64 base in
  let n := Qfloor exponent in
  binary64 (if decide (0 ≤ n) then Qcpower b (Z.to_nat n)
            else Qcinv (Qcpower b (Z.to_nat (- n)))).

(** ** pandas and numpy primitives *)

(** [Series.unique()]: the distinct values in order of first appearance. *)
Definition unique_step `{EqDecision A} (acc : list A) (x : A) : list A :=
  if decide (x ∈ acc) then acc else acc ++ [x].

Definition unique `{EqDecision A} (l : list A) : list A :=
  foldl unique_step [] l.

(** A stable sort: an element is placed in front of the first element that
    is not smaller, so equal elements keep their input order. *)
Section stable_sort.
Context {A : Type} (leb : A → A → bool).

Fixpoint sort_insert (x : A) (l : list A) : list A :=
  match l with
  | [] => [x]
  | y :: l' => if leb x y then x :: y :: l' else y :: sort_insert x l'
  end.

Fixpoint stable_sort (l : list A) : list A :=
  match l with
  | [] => []
  | x :: l' => sort_insert x (stable_sort l')
  end.
End stable_sort.

(** The exact sum of a column, in row order. *)
Definition Qcsum (l : list Qc) : Qc := foldl Qcplus 0%Qc l.

(** [df.groupby(key)[col].sum()]: one row per distinct key, keys ascending;
    the value is the sum of the group's rows, which [fsum] takes over the
    values in row order. *)
Definition groupby_sum `{EqDecision K} (fsum : list Qc → Qc)
    (kleb : K → K → bool) (rows : list (K * Qc)) : list (K * Qc) :=
  (λ k, (k, fsum (filter (λ r, r.1 = k) rows).*2))
    <$> stable_sort kleb (unique rows.*1).

(** [numpy.argsort] with the default [kind='quicksort']: the indices that
    sort the array ascending.  Its contract is [argsort_ok]; the order it
    leaves equal values in is not part of it. *)
Definition Sorter : Type := list Qc → list nat.

Record argsort_ok (argsort : Sorter) : Prop := {
  argsort_perm : ∀ l, argsort l ≡ₚ seq 0 (length l);
  argsort_sorted : ∀ l, StronglySorted Qcle (omap (l !!.) (argsort l))
}.

(** A sorter is stable when equal values keep their input order. *)
Definition stable (argsort : Sorter) : Prop :=
  ∀ l i j x y, argsort l !! i = Some x → argsort l !! j = Some y →
    (i < j)%nat → l !! x = l !! y → (x < y)%nat.

(** Sorting the (index, value) pairs with a comparison. *)
Definition argsort_by (leb : nat * Qc → nat * Qc → bool) : Sorter :=
  λ l, (stable_sort leb (enumerate l)).*1.

(** A stable sorter, as numpy's insertion sort on short arrays. *)
Definition insertion_argsort : Sorter :=
  argsort_by (λ a b, bool_decide (a.2 ≤ b.2)%Qc).

(** [pandas.core.sorting.nargsort] on a column without missing values: a
    descending sort reverses the column, sorts ascending and reverses the
    result. *)
Definition nargsort (S : Sorter) (items : list Qc) (ascending : bool) : list nat :=
  let idx := seq 0 (length items) in
  let non_nans := if ascending then items else reverse items in
  let non_nan_idx := if ascending then idx else reverse idx in
  let indexer := omap (non_nan_idx !!.) (S non_nans) in
  if ascending then indexer else reverse indexer.

(** [Series.sort_values(ascending=...)] on a series of (index, value). *)
Definition sort_values {I} (S : Sorter) (s : list (I * Qc)) (ascending : bool)
    : list (I * Qc) :=
  omap (s !!.) (nargsort S s.*2 ascending).

(** ** numpy's argsort of the default kind ([npysort/quicksort.cpp]) *)

(** The generic routine [aquicksort_], which sorts an array of indices by
    the values they point to: quicksort with the median of three, insertion
    sort on ranges of at most [SMALL_QUICKSORT + 1] entries, and heapsort
    once the depth limit is used up.  It is what [argsort] runs where numpy
    dispatches no vectorised sort for the processor. *)
Module npysort.
Section aquicksort.
(** the array that is sorted indirectly *)
Variable v : list Qc.

(** [v[a[p]]] for the index array [a] *)
Definition key_at (a : list nat) (p : nat) : Qc :=
  default 0%Qc (a !! p ≫= (v !!.)).

(** [v[i]] *)
Definition key_of (i : nat) : Qc := default 0%Qc (v !! i).

(** [Tag::less] on floats that are numbers *)
Definition less (x y : Qc) : bool := bool_decide (x < y)%Qc.

(** [INTP_SWAP(a[p], a[q])] *)
Definition INTP_SWAP (a : list nat) (p q : nat) : list nat :=
  match a !! p, a !! q with
  | Some x, Some y => <[q := x]> (<[p := y]> a)
  | _, _ => a
  end.

(** [do { ++pi; } while (less(v[*pi], vp));] *)
Fixpoint scan_up (fuel : nat) (a : list nat) (vp : Qc) (pi : nat) : nat :=
  match fuel with
  | O => pi
  | S fuel =>
      let pi := S pi in
      if less (key_at a pi) vp then scan_up fuel a vp pi else pi
  end.

(** [do { --pj; } while (less(vp, v[*pj]));] *)
Fixpoint scan_down (fuel : nat) (a : list nat) (vp : Qc) (pj : nat) : nat :=
  match fuel with
  | O => pj
  | S fuel =>
      let pj := Nat.pred pj in
      if less vp (key_at a pj) then scan_down fuel a vp pj else pj
  end.

(** The [for (;;)] loop of the partition: the array and [pi] at the
    [break]. *)
Fixpoint partition_loop (fuel : nat) (a : list nat) (vp : Qc) (pi pj : nat)
    : list nat * nat :=
  match fuel with
  | O => (a, pi)
  | S fuel =>
      let pi := scan_up (length a) a vp pi in
      let pj := scan_down (length a) a vp pj in
      if (pj <=? pi)%nat then (a, pi)
      else partition_loop fuel (INTP_SWAP a pi pj) vp pi pj
  end.

(** The partition of [a[pl..pr]]: the median of three goes to [pr - 1] as
    the pivot, and comes to rest at the [pi] that is returned. *)
Definition partition (a : list nat) (pl pr : nat) : list nat * nat :=
  let pm := (pl + Nat.shiftr (pr - pl) 1)%nat in
  let a := if less (key_at a pm) (key_at a pl) then INTP_SWAP a pm pl else a in
  let a := if less (key_at a pr) (key_at a pm) then INTP_SWAP a pr pm else a in
  let a := if less (key_at a pm) (key_at a pl) then INTP_SWAP a pm pl else a in
  let vp := key_at a pm in
  let pi := pl in
  let pj := (pr - 1)%nat in
  let a := INTP_SWAP a pm pj in
  let '(a, pi) := partition_loop (length a) a vp pi pj in
  let pk := (pr - 1)%nat in
  (INTP_SWAP a pi pk, pi).

Definition SMALL_QUICKSORT : nat := 16.

(** A range on the stack, with the depth left for it. *)
Definition Range : Type := nat * nat * Z.

(** [while ((pr - pl) > SMALL_QUICKSORT)]: partition, push the larger part
    on the stack and go on with the smaller one. *)
Fixpoint partition_rounds (fuel : nat) (a : list nat) (pl pr : nat) (cdepth : Z)
    (stack : list Range) : list nat * Range * list Range :=
  match fuel with
  | O => (a, (pl, pr, cdepth), stack)
  | S fuel =>
      if (SMALL_QUICKSORT <? pr - pl)%nat then
        let '(a, pi) := partition a pl pr in
        let cdepth := cdepth - 1 in
        if (pi - pl <? pr - pi)%nat
        then partition_rounds fuel a pl (pi - 1)%nat cdepth
               ((S pi, pr, cdepth) :: stack)
        else partition_rounds fuel a (S pi) pr cdepth
               ((pl, (pi - 1)%nat, cdepth) :: stack)
      else (a, (pl, pr, cdepth), stack)
  end.

(** The inner [while (pj > pl && less(vp, v[*pk]))] of the insertion sort:
    the larger entries move up, and [vi] goes where the loop stops. *)
Fixpoint insert_down (fuel : nat) (a : list nat) (pl : nat) (vi : nat)
    (pj : nat) : list nat :=
  match fuel with
  | O => <[pj := vi]> a
  | S fuel =>
      let pk := Nat.pred pj in
      if (pl <? pj)%nat && less (key_of vi) (key_at a pk)
      then insert_down fuel (<[pj := default 0%nat (a !! pk)]> a) pl vi pk
      else <[pj := vi]> a
  end.

(** [for (pi = pl + 1; pi <= pr; ++pi)] *)
Definition insertion_sort (a : list nat) (pl pr : nat) : list nat :=
  foldl (λ a pi, insert_down (length a) a pl (default 0%nat (a !! pi)) pi)
        a (seq (S pl) (pr - pl)).

(** [aheapsort_] on the [n] entries from [pl]: the heap is [a[1..n]], one
    entry before the range. *)
Definition heap_get (a : list nat) (pl k : nat) : nat :=
  default 0%nat (a !! (pl + k - 1)%nat).
Definition heap_set (a : list nat) (pl k : nat) (x : nat) : list nat :=
  <[(pl + k - 1)%nat := x]> a.

(** [for (i = .., j = ..; j <= n;) { ... } a[i] = tmp;] *)
Fixpoint sift (fuel : nat) (a : list nat) (pl n : nat) (tmp : nat) (i j : nat)
    : list nat :=
  match fuel with
  | O => heap_set a pl i tmp
  | S fuel =>
      if (n <? j)%nat then heap_set a pl i tmp
      else
        let j := if (j <? n)%nat
                    && less (key_of (heap_get a pl j))
                            (key_of (heap_get a pl (j + 1)))
                 then (j + 1)%nat else j in
        if less (key_of tmp) (key_of (heap_get a pl j))
        then sift fuel (heap_set a pl i (heap_get a pl j)) pl n tmp j (j + j)%nat
        else heap_set a pl i tmp
  end.

Definition aheapsort_ (a : list nat) (pl n : nat) : list nat :=
  let a :=
    foldl (λ a l, sift (length a) a pl n (heap_get a pl l) l (l + l)%nat)
          a (reverse (seq 1 (Nat.shiftr n 1))) in
  foldl (λ a n,
           let tmp := heap_get a pl n in
           let a := heap_set a pl n (heap_get a pl 1) in
           sift (length a) a pl (n - 1)%nat tmp 1%nat 2%nat)
        a (reverse (seq 2 (n - 1))).

(** The outer [while (1)] loop: heapsort when the depth is used up,
    otherwise the partition rounds and the insertion sort of what is left,
    and then the next range from the stack. *)
Fixpoint aquicksort_loop (fuel : nat) (a : list nat) (pl pr : nat) (cdepth : Z)
    (stack : list Range) : list nat :=
  match fuel with
  | O => a
  | S fuel =>
      let stack_pop a stack :=
        match stack with
        | [] => a
        | (pl, pr, cdepth) :: stack => aquicksort_loop fuel a pl pr cdepth stack
        end in
      if decide (cdepth < 0) then stack_pop (aheapsort_ a pl (pr - pl + 1)%nat) stack
      else
        let '(a, (pl, pr, _), stack) :=
          partition_rounds (length a) a pl pr cdepth stack in
        stack_pop (insertion_sort a pl pr) stack
  end.

(** [aquicksort_(v, tosort, num)]; the depth limit is twice the position of
    the highest bit of [num]. *)
Definition aquicksort_ (tosort : list nat) (num : nat) : list nat :=
  aquicksort_loop (S num) tosort 0 (num - 1) (Z.log2 (Z.of_nat num) * 2) [].
End aquicksort.
End npysort.

(** [numpy.argsort(v)] with [kind='quicksort']: the indices [0 .. n-1],
    sorted by [aquicksort_]. *)
Definition npy_argsort : Sorter := λ v,
  let num := length v in
  let tosort := seq 0 num in
  if decide (num = 0%nat) then tosort else npysort.aquicksort_ v tosort num.

(** ** Configuration ([config/settings.py]) *)

Record Settings := {
  REDIS_KEY_PREFIX : string;
  REDIS_EXPIRE_SECONDS : Z;
  REC_HISTORY_COUNT : Z;
  REC_DISCOVERY_COUNT : Z;
  REC_RELATED_COUNT : Z;
  TIME_DECAY_WINDOW : Z;
  TIME_DECAY_RATE : Qc;
  ALS_FACTORS : Z;
  ALS_REGULARIZATION : Qc;
  ALS_ITERATIONS : Z;
  ALS_ALPHA : Qc
}.

Definition settings : Settings := {|
  REDIS_KEY_PREFIX := "rec:sys:";
  REDIS_EXPIRE_SECONDS := 86400;
  REC_HISTORY_COUNT := 4;
  REC_DISCOVERY_COUNT := 8;
  REC_RELATED_COUNT := 5;
  TIME_DECAY_WINDOW := 180;
  TIME_DECAY_RATE := Q2Qc (95 # 100);
  ALS_FACTORS := 64;
  ALS_REGULARIZATION := Q2Qc (5 # 100);
  ALS_ITERATIONS := 20;
  ALS_ALPHA := Q2Qc 40
|}.

(** ** Sparse matrices ([scipy.sparse.csr_matrix]) *)

(** A matrix is its shape and its stored entries, (row, column) with the
    value, in row-major order. *)
Record csr_matrix := {
  shape : nat * nat;
  entries : dict (nat * nat) Qc
}.

(** [csr_matrix((0, 0))]: no stored entry. *)
Definition csr_zeros (sh : nat * nat) : csr_matrix :=
  {| shape := sh; entries := [] |}.

(** Row-major order of the positions. *)
Definition coord_leb (a b : nat * nat) : bool :=
  (a.1 <? b.1)%nat || ((a.1 =? b.1)%nat && (a.2 <=? b.2)%nat).

(** [csr_matrix((data, (row, col)), shape=sh)]: entries that share a
    position are summed; arrays of different lengths or an index outside the
    shape raise. *)
Definition csr_from_coo (data : list Qc) (row col : list nat) (sh : nat * nat)
    : option csr_matrix :=
  if bool_decide (length row = length data ∧ length col = length data
                  ∧ Forall (λ i, (i < sh.1)%nat) row
                  ∧ Forall (λ j, (j < sh.2)%nat) col)
  then Some {| shape := sh;
               entries := groupby_sum Qcsum coord_leb (zip (zip row col) data) |}
  else None.

(** [m[i]]: the (column, value) entries stored in row [i]; out of range
    raises. *)
Definition getrow (m : csr_matrix) (i : nat) : option (list (nat * Qc)) :=
  if decide (i < (shape m).1)%nat
  then Some ((λ e, (e.1.2, e.2)) <$> filter (λ e, e.1.1 = i) (entries m))
  else None.

(** [m.nnz]: the number of stored entries. *)
Definition nnz (m : csr_matrix) : nat := length (entries m).

(** [m[i, j]] *)
Definition csr_at (m : csr_matrix) (i j : nat) : Qc :=
  default 0%Qc (PyDict.get (entries m) (i, j)).

(** ** The interaction loader ([core/dataloader.py]) *)

(** A row of the table [pre_browser_histories]; times are in seconds. *)
Record HistoryRow := {
  hr_user_id : Z;
  hr_object_id : Z;
  hr_visited_at : Z;
  hr_deleted_at : option Z
}.

(** A row of the query result. *)
Record Event := {
  ev_user_id : Z;
  ev_object_id : Z;
  ev_visited_at : Z
}.

(** A row of the aggregated frame [df_grouped]. *)
Record ScoreEntry := {
  user_id : Z;
  object_id : Z;
  score : Qc
}.

Global Instance ScoreEntry_eq_dec : EqDecision ScoreEntry.
Proof. solve_decision. Defined.

Record DataLoader := {
  user_id_to_idx : dict Z nat;
  user_idx_to_id : dict nat Z;
  item_id_to_idx : dict Z nat;
  item_idx_to_id : dict nat Z
}.

(** [DataLoader.__init__] *)
Definition DataLoader_init : DataLoader :=
  {| user_id_to_idx := []; user_idx_to_id := [];
     item_id_to_idx := []; item_idx_to_id := [] |}.

(** Ascending order of the group key (user_id, object_id). *)
Definition pair_leb (a b : Z * Z) : bool :=
  (a.1 <? b.1) || ((a.1 =? b.1) && (a.2 <=? b.2)).

Section loader.
Variable cfg : Settings.
(** [base ** exponent] on floats. *)
Variable fpow : Qc → Qc → Qc.
(** The sum of a column of floats, taken in row order: the sum of a pandas
    group. *)
Variable fsum : list Qc → Qc.

(** The query: rows that are not deleted and not older than the window,
    counted from the database clock. *)
Definition read_sql (table : list HistoryRow) (db_now : Z) : list Event :=
  (λ r, {| ev_user_id := hr_user_id r; ev_object_id := hr_object_id r;
           ev_visited_at := hr_visited_at r |})
  <$> filter (λ r, hr_deleted_at r = None
                   ∧ db_now - TIME_DECAY_WINDOW cfg * 86400 ≤ hr_visited_at r)
             table.

(** [total_seconds() / (24 * 3600)]: a division of floats. *)
Definition days_diff (now : Z) (e : Event) : Qc :=
  binary64 (Q2Qc ((now - ev_visited_at e) # 86400)).

Definition weight (now : Z) (e : Event) : Qc :=
  fpow (TIME_DECAY_RATE cfg) (days_diff now e).

(** [df.groupby(['user_id', 'object_id'])['weight'].sum().reset_index()]
    with the column renamed to [score]. *)
Definition aggregate (now : Z) (df : list Event) : list ScoreEntry :=
  (λ r, {| user_id := r.1.1; object_id := r.1.2; score := r.2 |})
  <$> groupby_sum fsum pair_leb
        ((λ e, ((ev_user_id e, ev_object_id e), weight now e)) <$> df).

(** [load_and_process]: the loader after the call and the pair it returns,
    or [None] when the query or a library call raises.  [conn] is the
    table behind the connection, [None] when the database cannot be read;
    [db_now] is the database clock and [now] the clock of the process. *)
Definition load_and_process (self : DataLoader)
    (conn : option (list HistoryRow)) (db_now now : Z)
    : option (DataLoader * (list ScoreEntry * csr_matrix)) :=
  table ← conn;
  let df := read_sql table db_now in
  if bool_decide (df = []) then Some (self, ([], csr_zeros (0, 0)%nat))
  else
    let df_grouped := aggregate now df in
    let unique_users := unique (user_id <$> df_grouped) in
    let unique_items := unique (object_id <$> df_grouped) in
    let self' :=
      {| user_id_to_idx := PyDict.of_items ((λ p, (p.2, p.1)) <$> enumerate unique_users);
         user_idx_to_id := PyDict.of_items (enumerate unique_users);
         item_id_to_idx := PyDict.of_items ((λ p, (p.2, p.1)) <$> enumerate unique_items);
         item_idx_to_id := PyDict.of_items (enumerate unique_items) |} in
    users_indices ← mapM (PyDict.get (user_id_to_idx self')) (user_id <$> df_grouped);
    items_indices ← mapM (PyDict.get (item_id_to_idx self')) (object_id <$> df_grouped);
    let scores := score <$> df_grouped in
    sparse_user_item ← csr_from_coo scores users_indices items_indices
                          (length unique_users, length unique_items);
    Some (self', (df_grouped, sparse_user_item)).
End loader.

(** ** The factor model (library [implicit]) *)

(** What the engine calls on a fitted [AlternatingLeastSquares] model; a
    call that raises returns [None]. *)
Record ALSModel := {
  (** [recommend(userid, user_items, N, filter_already_liked_items)] *)
  recommend : nat → list (nat * Qc) → Z → bool → option (list nat);
  (** [similar_items(itemid, N)] *)
  similar_items : nat → Z → option (list nat)
}.

Record Factors := {
  user_factors : list (list Qc);
  item_factors : list (list Qc)
}.

Definition dot (a b : list Qc) : Qc := Qcsum (zip_with Qcmult a b).

(** The [N] best-scored indices, best first. *)
Definition top_k (scored : list (nat * Qc)) (N : Z) : list nat :=
  (take (Z.to_nat N) (stable_sort (λ a b, bool_decide (b.2 ≤ a.2)%Qc) scored)).*1.

(** Modelled from the spec: the retrieval routines of the [implicit]
    library, which is not part of the repository.  [recommend] scores every
    item by the dot product with the user's factor, leaves out the items
    stored in the user's interaction row when asked to, and returns the top
    [N]; [similar_items] scores every item (the query item included) against
    the query item's factor and returns the top [N]. *)
Definition factor_model (F : Factors) : ALSModel := {|
  recommend userid user_items N filter_already_liked_items :=
    uf ← user_factors F !! userid;
    let scored := imap (λ j f, (j, dot uf f)) (item_factors F) in
    let candidates :=
      if filter_already_liked_items
      then filter (λ p, p.1 ∉ user_items.*1) scored else scored in
    Some (top_k candidates N);
  similar_items itemid N :=
    f ← item_factors F !! itemid;
    Some (top_k (imap (λ j g, (j, dot f g)) (item_factors F)) N)
|}.

(** ** The recommendation engine ([core/engine.py]) *)

Record RecommendationEngine := {
  user_map : dict Z nat;
  item_inv_map : dict nat Z;
  history_df : list ScoreEntry;
  user_history_index : dict Z (list Z);
  popular_items : list Z;
  (** the fitted state of [self.model]; [None] before [fit] *)
  model : option ALSModel;
  is_trained : bool;
  user_items_matrix : option csr_matrix;
  (** the attribute is absent until the first lookup builds it *)
  _item_id_map_cache : option (dict Z nat)
}.

(** Order of [sort_values(['user_id', 'score'], ascending=[True, False])].
    A sort on several columns goes through pandas' lexsort, which is stable:
    it is [stable_sort] with this comparison. *)
Definition history_leb (a b : ScoreEntry) : bool :=
  (user_id a <? user_id b)
  || ((user_id a =? user_id b) && bool_decide (score b ≤ score a)%Qc).

(** [df.groupby('user_id')['object_id'].apply(list).to_dict()] *)
Definition groupby_list (df : list ScoreEntry) : dict Z (list Z) :=
  PyDict.of_items
    ((λ u, (u, object_id <$> filter (λ e, user_id e = u) df))
     <$> stable_sort Z.leb (unique (user_id <$> df))).

Section engine.
Variable cfg : Settings.
(** the sum of a pandas group, as in the loader *)
Variable fsum : list Qc → Qc.
(** [Series.sort_values] on one column sorts with numpy's argsort of the
    default kind *)
Variable S : Sorter.
(** [AlternatingLeastSquares(...).fit], with the seed fixed *)
Variable fit : csr_matrix → option ALSModel.

(** [RecommendationEngine.__init__] *)
Definition RecommendationEngine_init (user_map : dict Z nat)
    (item_inv_map : dict nat Z) (history_df : list ScoreEntry)
    : RecommendationEngine :=
  let sorted_df := stable_sort history_leb history_df in
  let popular_series :=
    sort_values S
      (groupby_sum fsum Z.leb ((λ e, (object_id e, score e)) <$> history_df))
      false in
  {| user_map := user_map;
     item_inv_map := item_inv_map;
     history_df := history_df;
     user_history_index := groupby_list sorted_df;
     popular_items := popular_series.*1;
     model := None;
     is_trained := false;
     user_items_matrix := None;
     _item_id_map_cache := None |}.

(** [train]; [None] when the fit raises. *)
Definition train (self : RecommendationEngine) (user_item_matrix : csr_matrix)
    : option RecommendationEngine :=
  m ← fit user_item_matrix;
  Some {| user_map := user_map self;
          item_inv_map := item_inv_map self;
          history_df := history_df self;
          user_history_index := user_history_index self;
          popular_items := popular_items self;
          model := Some m;
          is_trained := true;
          user_items_matrix := Some user_item_matrix;
          _item_id_map_cache := _item_id_map_cache self |}.

Definition get_history_rec (self : RecommendationEngine) (uid : Z) : list Z :=
  let all_items := default [] (PyDict.get (user_history_index self) uid) in
  py_slice_to all_items (REC_HISTORY_COUNT cfg).

(** An exception inside the [try] block gives the empty list. *)
Definition get_discovery_rec (self : RecommendationEngine) (uid : Z) : list Z :=
  if negb (is_trained self) || negb (PyDict.contains (user_map self) uid)
  then []
  else default []
    (user_idx ← PyDict.get (user_map self) uid;
     matrix ← user_items_matrix self;
     user_items ← getrow matrix user_idx;
     m ← model self;
     ids ← recommend m user_idx user_items (REC_DISCOVERY_COUNT cfg) true;
     mapM (PyDict.get (item_inv_map self)) ids).

Definition get_popular_items (self : RecommendationEngine) (limit : Z) : list Z :=
  py_slice_to (popular_items self) limit.

Definition set_item_id_map_cache (self : RecommendationEngine)
    (c : dict Z nat) : RecommendationEngine :=
  {| user_map := user_map self;
     item_inv_map := item_inv_map self;
     history_df := history_df self;
     user_history_index := user_history_index self;
     popular_items := popular_items self;
     model := model self;
     is_trained := is_trained self;
     user_items_matrix := user_items_matrix self;
     _item_id_map_cache := Some c |}.

(** [get_related_items]: the list returned and the engine after the call. *)
Definition get_related_items (self : RecommendationEngine) (item_id : Z)
    : list Z * RecommendationEngine :=
  if negb (is_trained self) then ([], self)
  else
    let cache :=
      match _item_id_map_cache self with
      | Some c => c
      | None => PyDict.of_items
                  ((λ p, (p.2, p.1)) <$> PyDict.items (item_inv_map self))
      end in
    let self' := set_item_id_map_cache self cache in
    match PyDict.get cache item_id with
    | None => ([], self')
    | Some item_idx =>
        (default []
           (m ← model self;
            ids ← similar_items m item_idx (REC_RELATED_COUNT cfg + 1);
            rec_ids ← mapM (PyDict.get (item_inv_map self))
                         (filter (λ idx, idx ≠ item_idx) ids);
            Some (py_slice_to rec_ids (REC_RELATED_COUNT cfg))),
         self')
    end.
End engine.

(** ** The cache ([redis]) *)

Inductive RedisCmd :=
  | DEL (key : string)
  | RPUSH (key : string) (values : list Z)
  | EXPIRE (key : string) (seconds : Z).

(** A list value and its time to live. *)
Record RedisValue := {
  elems : list Z;
  ttl : option Z
}.

Abbreviation keyspace := (gmap string RedisValue).

(** One command on the key space.  RPUSH appends to the list at the key or
    creates it, and is rejected without a value; EXPIRE sets the time to live
    of an existing key and deletes the key when the time is not positive. *)
Definition exec_cmd (db : keyspace) (c : RedisCmd) : keyspace :=
  match c with
  | DEL k => delete k db
  | RPUSH k vs =>
      if bool_decide (vs = []) then db
      else match db !! k with
           | Some v => <[k := {| elems := elems v ++ vs; ttl := ttl v |}]> db
           | None => <[k := {| elems := vs; ttl := None |}]> db
           end
  | EXPIRE k secs =>
      match db !! k with
      | Some v => if bool_decide (0 < secs)
                  then <[k := {| elems := elems v; ttl := Some secs |}]> db
                  else delete k db
      | None => db
      end
  end.

(** [pipe.execute()]: the queued commands, in order. *)
Definition execute (db : keyspace) (pipe : list RedisCmd) : keyspace :=
  foldl exec_cmd db pipe.

(** ** The batch job ([main.py]) *)

(** The value of [user_recs[uid]]: a dict with the keys ['history'] and
    ['discovery']. *)
Record UserRecs := {
  history : list Z;
  discovery : list Z
}.

Section publisher.
Variable cfg : Settings.

Definition key_hist (uid : Z) : string :=
  REDIS_KEY_PREFIX cfg +:+ "user:" +:+ pretty uid +:+ ":history".
Definition key_disc (uid : Z) : string :=
  REDIS_KEY_PREFIX cfg +:+ "user:" +:+ pretty uid +:+ ":discovery".
Definition key_related (iid : Z) : string :=
  REDIS_KEY_PREFIX cfg +:+ "item:" +:+ pretty iid +:+ ":related".

(** The body of the loop over [user_recs.items()]. *)
Definition save_user (pipe : list RedisCmd) (entry : Z * UserRecs)
    : list RedisCmd :=
  let '(uid, recs) := entry in
  let pipe := pipe ++ [DEL (key_hist uid)] in
  let pipe :=
    if bool_decide (history recs ≠ [])
    then pipe ++ [RPUSH (key_hist uid) (history recs);
                  EXPIRE (key_hist uid) (REDIS_EXPIRE_SECONDS cfg)]
    else pipe in
  let pipe := pipe ++ [DEL (key_disc uid)] in
  if bool_decide (discovery recs ≠ [])
  then pipe ++ [RPUSH (key_disc uid) (discovery recs);
                EXPIRE (key_disc uid) (REDIS_EXPIRE_SECONDS cfg)]
  else pipe.

(** The body of the loop over [item_recs.items()]. *)
Definition save_item (pipe : list RedisCmd) (entry : Z * list Z)
    : list RedisCmd :=
  let '(iid, related_ids) := entry in
  let pipe := pipe ++ [DEL (key_related iid)] in
  if bool_decide (related_ids ≠ [])
  then pipe ++ [RPUSH (key_related iid) related_ids;
                EXPIRE (key_related iid) (REDIS_EXPIRE_SECONDS cfg)]
  else pipe.

(** The commands [save_results_to_redis] queues on its pipeline. *)
Definition save_results_pipeline (user_recs : dict Z UserRecs)
    (item_recs : dict Z (list Z)) : list RedisCmd :=
  let pipe := [] in
  let pipe := foldl save_user pipe (PyDict.items user_recs) in
  foldl save_item pipe (PyDict.items item_recs).

(** [save_results_to_redis] on the key space behind the connection, [None]
    when the server cannot be reached: the error is logged and swallowed. *)
Definition save_results_to_redis (user_recs : dict Z UserRecs)
    (item_recs : dict Z (list Z)) (server : option keyspace)
    : option keyspace :=
  db ← server;
  Some (execute db (save_results_pipeline user_recs item_recs)).
End publisher.

(** What a run does to the outside, in order. *)
Inductive Effect :=
  | ModelFit (m : csr_matrix)
  | PipelineExecute (pipe : list RedisCmd)
  | SysExit (code : Z).

Section main.
Variable cfg : Settings.
Variable fpow : Qc → Qc → Qc.
Variable fsum : list Qc → Qc.
Variable S : Sorter.
Variable fit : csr_matrix → option ALSModel.

(** The loop over [active_items]; the engine is threaded through because
    [get_related_items] may update it. *)
Definition related_loop (engine : RecommendationEngine) (active_items : list Z)
    : dict Z (list Z) * RecommendationEngine :=
  foldl (λ acc iid,
           let '(rec_related, engine') := get_related_items cfg acc.2 iid in
           (PyDict.set acc.1 iid rec_related, engine'))
        ([], engine) active_items.

(** The loop over [active_users]. *)
Definition user_loop (engine : RecommendationEngine) (active_users : list Z)
    : dict Z UserRecs :=
  foldl (λ d uid,
           PyDict.set d uid
             {| history := get_history_rec cfg engine uid;
                discovery := get_discovery_rec cfg engine uid |})
        [] active_users.

(** [main]: the effects of the run and the cache after it. *)
Definition main (conn : option (list HistoryRow)) (db_now now : Z)
    (server : option keyspace) : list Effect * option keyspace :=
  let loader := DataLoader_init in
  match load_and_process cfg fpow fsum loader conn db_now now with
  | None => ([SysExit 1], server)
  | Some (loader, (df_grouped, sparse_matrix)) =>
      if bool_decide ((shape sparse_matrix).1 = 0%nat)
      then ([SysExit 1], server)
      else
        let engine :=
          RecommendationEngine_init fsum S (user_id_to_idx loader)
            (item_idx_to_id loader) df_grouped in
        match train fit engine sparse_matrix with
        | None => ([ModelFit sparse_matrix; SysExit 1], server)
        | Some engine =>
            let active_users := unique (user_id <$> df_grouped) in
            let user_recommendations := user_loop engine active_users in
            let active_items := unique (object_id <$> df_grouped) in
            let item_recommendations := (related_loop engine active_items).1 in
            ([ModelFit sparse_matrix;
              PipelineExecute
                (save_results_pipeline cfg user_recommendations
                   item_recommendations)],
             save_results_to_redis cfg user_recommendations
               item_recommendations server)
        end
  end.

(** The loader, the aggregated frame, the matrix and the trained engine of
    a run that gets as far as the predictions. *)
Definition main_engine (conn : option (list HistoryRow)) (db_now now : Z)
    : option (DataLoader * list ScoreEntry * csr_matrix * RecommendationEngine) :=
  out ← load_and_process cfg fpow fsum DataLoader_init conn db_now now;
  if bool_decide ((shape out.2.2).1 = 0%nat) then None
  else
    engine ← train fit
               (RecommendationEngine_init fsum S (user_id_to_idx out.1)
                  (item_idx_to_id out.1) out.2.1)
               out.2.2;
    Some (out.1, out.2.1, out.2.2, engine).
End main.

(** * Notions used to state the properties *)

(** A comparison that is a total order. *)
Class TotalOrderB {K} (kleb : K → K → bool) := {
  kleb_total x y : kleb x y = true ∨ kleb y x = true;
  kleb_trans x y z : kleb x y = true → kleb y z = true → kleb x z = true;
  kleb_antisym x y : kleb x y = true → kleb y x = true → x = y
}.

(** Strictly ascending keys. *)
Definition key_lt {K} (kleb : K → K → bool) : relation K :=
  λ a b, kleb a b = true ∧ a ≠ b.

(** First by [leb]; among elements that [leb] does not tell apart, by a
    second relation. *)
Definition lex_rel {A} (leb : A → A → bool) (R : relation A) : relation A :=
  λ x y, leb x y = true ∧ (leb y x = true → R x y).

(** The dict in the other direction, value to index. *)
Definition inverse {A} (l : list A) : list (A * nat) :=
  (λ p, (p.2, p.1)) <$> enumerate l.

(** The index the inverse dict gives a value. *)
Definition idx_of `{EqDecision A} (l : list A) (x : A) : nat :=
  default 0%nat (PyDict.get (inverse l) x).

(** The group key of an aggregated row and of an event. *)
Definition pair_of (e : ScoreEntry) : Z * Z := (user_id e, object_id e).
Definition ev_pair (e : Event) : Z * Z := (ev_user_id e, ev_object_id e).

(** The score the aggregation is to give a pair: the sum of the weights of
    the pair's events. *)
Definition pair_score (cfg : Settings) (fpow : Qc → Qc → Qc)
    (fsum : list Qc → Qc) (now : Z) (df : list Event) (k : Z * Z) : Qc :=
  fsum (weight cfg fpow now <$> filter (λ ev, ev_pair ev = k) df).

(** The outcome of the load on a query result with rows. *)
Definition loaded (cfg : Settings) (fpow : Qc → Qc → Qc)
    (fsum : list Qc → Qc) (now : Z) (df : list Event)
    : DataLoader * (list ScoreEntry * csr_matrix) :=
  let agg := aggregate cfg fpow fsum now df in
  let users := unique (user_id <$> agg) in
  let items := unique (object_id <$> agg) in
  ({| user_id_to_idx := inverse users;
      user_idx_to_id := enumerate users;
      item_id_to_idx := inverse items;
      item_idx_to_id := enumerate items |},
   (agg,
    {| shape := (length users, length items);
       entries := groupby_sum Qcsum coord_leb
         ((λ e, ((idx_of users (user_id e), idx_of items (object_id e)), score e))
          <$> agg) |})).

(** The position of an aggregated row in the matrix. *)
Definition coords (agg : list ScoreEntry) (e : ScoreEntry) : nat * nat :=
  (idx_of (unique (user_id <$> agg)) (user_id e),
   idx_of (unique (object_id <$> agg)) (object_id e)).

(** The order of a user's history: score descending, then item ascending. *)
Definition history_order : relation ScoreEntry :=
  λ a b, (score b < score a)%Qc ∨ score a = score b ∧ object_id a < object_id b.

(** Applying a sorter to a keyed table. *)
Definition permute {I} (S : Sorter) (t : list (I * Qc)) : list (I * Qc) :=
  omap (t !!.) (S t.*2).

(** The series of item totals the popularity ranking sorts. *)
Definition item_totals (fsum : list Qc → Qc) (df : list ScoreEntry)
    : list (Z * Qc) :=
  groupby_sum fsum Z.leb ((λ e, (object_id e, score e)) <$> df).

(** The order of the popularity ranking with the tie-break: total
    descending, then item ascending. *)
Definition popular_order : relation (Z * Qc) :=
  λ a b, (b.2 < a.2)%Qc ∨ a.2 = b.2 ∧ a.1 < b.1.

(** The reverse map [get_related_items] builds on its first lookup. *)
Definition item_id_map (self : RecommendationEngine) : dict Z nat :=
  PyDict.of_items ((λ p, (p.2, p.1)) <$> PyDict.items (item_inv_map self)).

(** The cache, once built, is the reverse of the index-to-id map. *)
Definition cache_ok (self : RecommendationEngine) : Prop :=
  match _item_id_map_cache self with
  | Some c => c = item_id_map self
  | None => True
  end.

(** The lookup table [get_related_items] works with. *)
Definition related_cache (self : RecommendationEngine) : dict Z nat :=
  match _item_id_map_cache self with
  | Some c => c
  | None => item_id_map self
  end.

(** The engine states a sequence of [get_related_items] calls leads to. *)
Inductive engine_steps (cfg : Settings) (e : RecommendationEngine)
    : RecommendationEngine → Prop :=
  | steps_refl : engine_steps cfg e e
  | steps_related e' item_id :
      engine_steps cfg e e' →
      engine_steps cfg e (get_related_items cfg e' item_id).2.

(** Two engines that differ at most in the cached reverse map. *)
Definition same_but_cache (e e' : RecommendationEngine) : Prop :=
  user_map e' = user_map e
  ∧ item_inv_map e' = item_inv_map e
  ∧ history_df e' = history_df e
  ∧ user_history_index e' = user_history_index e
  ∧ popular_items e' = popular_items e
  ∧ model e' = model e
  ∧ is_trained e' = is_trained e
  ∧ user_items_matrix e' = user_items_matrix e.

(** A list of distinct item ids of the batch. *)
Definition in_batch (loader : DataLoader) (agg : list ScoreEntry) (l : list Z)
    : Prop :=
  NoDup l
  ∧ ∀ x, x ∈ l →
      x ∈ object_id <$> agg ∧ x ∈ PyDict.values (item_idx_to_id loader).

(** The key the read side ([api/app.py]) falls back to. *)
Definition popular_key (cfg : Settings) : string :=
  REDIS_KEY_PREFIX cfg +:+ "global:popular".

Definition cmd_key (c : RedisCmd) : string :=
  match c with DEL k | RPUSH k _ | EXPIRE k _ => k end.

(** What the publisher is to do for one key, in the words of the contract:
    clear the key, then write a list that is not empty and give it the time
    to live. *)
Definition key_cmds (cfg : Settings) (key : string) (l : list Z) : list RedisCmd :=
  DEL key ::
  (if decide (l = []) then []
   else [RPUSH key l; EXPIRE key (REDIS_EXPIRE_SECONDS cfg)]).

(** The value a key is to hold after the publish: none for an empty list. *)
Definition published (cfg : Settings) (l : list Z) : option RedisValue :=
  if decide (l = []) then None
  else Some {| elems := l; ttl := Some (REDIS_EXPIRE_SECONDS cfg) |}.

Definition user_cmds (cfg : Settings) (entry : Z * UserRecs) : list RedisCmd :=
  key_cmds cfg (key_hist cfg entry.1) (history entry.2)
  ++ key_cmds cfg (key_disc cfg entry.1) (discovery entry.2).

Definition item_cmds (cfg : Settings) (entry : Z * list Z) : list RedisCmd :=
  key_cmds cfg (key_related cfg entry.1) entry.2.

(** A fit that always succeeds with the factors [als_fit] finds. *)
Definition fit_with (als_fit : csr_matrix → Factors)
    : csr_matrix → option ALSModel :=
  λ m, Some (factor_model (als_fit m)).

(** ** A small batch *)

(** A power that is exact on whole days. *)
Definition day_pow (b e : Qc) : Qc := Qcpower b (Z.to_nat (Qfloor e)).

Definition w_now : Z := 20000000.

Definition visit (u i t : Z) (deleted : option Z) : HistoryRow :=
  {| hr_user_id := u; hr_object_id := i; hr_visited_at := t;
     hr_deleted_at := deleted |}.

(** User 1 saw item 100 today and yesterday and item 200 two hundred days
    ago; user 2 saw 200 and 300 today, and 100 in a row that is deleted; user
    3 saw 400 today. *)
Definition w_table : list HistoryRow :=
  [ visit 1 100 w_now None;
    visit 1 100 (w_now - 86400) None;
    visit 1 200 (w_now - 200 * 86400) None;
    visit 2 200 w_now None;
    visit 2 100 w_now (Some w_now);
    visit 2 300 w_now None;
    visit 3 400 w_now None ].

(** The same rows in another order. *)
Definition w_table_swapped : list HistoryRow :=
  [ visit 1 100 (w_now - 86400) None;
    visit 1 100 w_now None;
    visit 1 200 (w_now - 200 * 86400) None;
    visit 2 200 w_now None;
    visit 2 100 w_now (Some w_now);
    visit 2 300 w_now None;
    visit 3 400 w_now None ].

(** Only a deleted row and a row outside the window. *)
Definition w_table_stale : list HistoryRow :=
  [ visit 1 100 w_now (Some w_now);
    visit 1 200 (w_now - 200 * 86400) None ].

Definition w_factors : Factors :=
  {| user_factors := [[1%Qc; 0%Qc]; [0%Qc; 1%Qc]; [1%Qc; 1%Qc]];
     item_factors := [[1%Qc; 0%Qc]; [0%Qc; 1%Qc]; [1%Qc; 1%Qc]; [Q2Qc 2; 0%Qc]] |}.

(** The load of the small batch. *)
Definition w_out : DataLoader * (list ScoreEntry * csr_matrix) :=
  Eval vm_compute in
    default (DataLoader_init, ([], csr_zeros (0, 0)%nat))
      (load_and_process settings day_pow Qcsum DataLoader_init (Some w_table)
         w_now w_now).

Definition w_loader : DataLoader := w_out.1.
Definition w_agg : list ScoreEntry := w_out.2.1.
Definition w_matrix : csr_matrix := w_out.2.2.

(** The engine of the small batch, trained. *)
Definition w_engine : RecommendationEngine :=
  default (RecommendationEngine_init Qcsum insertion_argsort [] [] [])
    (train (fit_with (λ _, w_factors))
       (RecommendationEngine_init Qcsum insertion_argsort (user_id_to_idx w_loader)
          (item_idx_to_id w_loader) w_agg)
       w_matrix).

Definition w_user_recs : dict Z UserRecs :=
  [(1, {| history := [100]; discovery := [400; 300; 200] |});
   (2, {| history := [200; 300]; discovery := [] |})].

Definition w_item_recs : dict Z (list Z) := [(100, [400; 300]); (200, [])].

(** Eighteen items, each seen once today by user 1: all totals are equal. *)
Definition tied_table : list HistoryRow :=
  (λ i, visit 1 (100 + Z.of_nat i) w_now None) <$> seq 0 18.

Definition tied_agg : list ScoreEntry :=
  aggregate settings float_pow float_sum w_now (read_sql settings tied_table w_now).

(** One user saw one item today, one day ago and four days ago. *)
Definition order_table : list HistoryRow :=
  [ visit 1 100 w_now None;
    visit 1 100 (w_now - 86400) None;
    visit 1 100 (w_now - 4 * 86400) None ].

(** The same rows with the oldest first. *)
Definition order_table_moved : list HistoryRow :=
  [ visit 1 100 (w_now - 4 * 86400) None;
    visit 1 100 w_now None;
    visit 1 100 (w_now - 86400) None ].

(** * Facts about the model *)

(** ** The primitives *)

Section dict_facts.
Context {K V : Type} `{EqDecision K}.
Implicit Types (d : dict K V) (k : K) (v : V).

Lemma dict_get_Some d k v : PyDict.get d k = Some v → (k, v) ∈ d.
Proof.
  induction d as [|[k' v'] d IH]; simpl; [done|].
  case_decide as Hk.
  - intros [= ->]. subst. left.
  - intros ?. right. auto.
Qed.

Lemma dict_get_None d k : PyDict.get d k = None ↔ k ∉ d.*1.
Proof.
  induction d as [|[k' v'] d IH]; simpl.
  - split; [intros _; apply not_elem_of_nil | done].
  - rewrite not_elem_of_cons. case_decide as Hk.
    + split; [done|]. intros [Hne _]. by destruct Hne.
    + rewrite IH. split; [by intros ?; split|by intros [_ ?]].
Qed.

Lemma dict_get_elem d k v : NoDup d.*1 → (k, v) ∈ d → PyDict.get d k = Some v.
Proof.
  induction d as [|[k' v'] d IH]; simpl.
  - intros _ ?%elem_of_nil. done.
  - intros [Hk' Hd]%NoDup_cons [Heq|Hin]%elem_of_cons.
    + injection Heq as -> ->. by rewrite decide_True.
    + rewrite decide_False; [by apply IH|].
      intros ->. apply Hk'. apply list_elem_of_fmap. by exists (k', v).
Qed.

Lemma dict_contains_true d k : PyDict.contains d k = true ↔ k ∈ d.*1.
Proof.
  unfold PyDict.contains. destruct (PyDict.get d k) eqn:E.
  - split; [|done]. intros _. apply dict_get_Some in E.
    apply list_elem_of_fmap. by eexists (_, _).
  - apply dict_get_None in E. split; [done|]. intros ?. by destruct E.
Qed.

Lemma dict_set_fresh d k v : k ∉ d.*1 → PyDict.set d k v = d ++ [(k, v)].
Proof.
  induction d as [|[k' v'] d IH]; simpl; [done|].
  rewrite not_elem_of_cons. intros [? ?].
  rewrite decide_False by done. by rewrite IH.
Qed.

Lemma dict_foldl_set {B} (f : B → K) (g : B → V) d (l : list B) :
  NoDup (d.*1 ++ (f <$> l)) →
  foldl (λ acc x, PyDict.set acc (f x) (g x)) d l = d ++ ((λ x, (f x, g x)) <$> l).
Proof.
  revert d. induction l as [|x l IH]; intros d Hnd; simpl.
  - by rewrite app_nil_r.
  - simpl in Hnd. apply NoDup_app in Hnd as (Hd & Hdl & Hl).
    apply NoDup_cons in Hl as [Hx Hl].
    rewrite dict_set_fresh.
    2:{ intros Hin. apply (Hdl _ Hin). left. }
    rewrite IH.
    + by rewrite <-app_assoc.
    + rewrite fmap_app. simpl. rewrite <-app_assoc. simpl.
      apply NoDup_app. split_and!; [done| |by apply NoDup_cons].
      intros y Hy. apply Hdl in Hy. done.
Qed.

Lemma dict_of_items_NoDup (l : list (K * V)) :
  NoDup l.*1 → PyDict.of_items l = l.
Proof.
  intros Hnd. unfold PyDict.of_items.
  rewrite (dict_foldl_set fst snd []); simpl.
  - clear. induction l as [|[] l IH]; simpl; [done|]. by f_equal.
  - done.
Qed.
End dict_facts.

Section unique_facts.
Context `{EqDecision A}.
Implicit Types (l acc : list A).

Lemma unique_foldl_NoDup l acc : NoDup acc → NoDup (foldl unique_step acc l).
Proof.
  revert acc. induction l as [|x l IH]; intros acc Hacc; simpl; [done|].
  apply IH. unfold unique_step. case_decide; [done|].
  apply NoDup_app. split_and!; [done| |apply NoDup_singleton].
  intros y Hy ->%list_elem_of_singleton. done.
Qed.

Lemma unique_foldl_elem l acc x : x ∈ foldl unique_step acc l ↔ x ∈ acc ∨ x ∈ l.
Proof.
  revert acc. induction l as [|y l IH]; intros acc; simpl.
  - rewrite elem_of_nil. tauto.
  - rewrite IH, elem_of_cons. unfold unique_step. case_decide.
    + split; [tauto|]. intros [?|[->|?]]; tauto.
    + rewrite elem_of_app, list_elem_of_singleton. tauto.
Qed.

Lemma NoDup_unique l : NoDup (unique l).
Proof. apply unique_foldl_NoDup, NoDup_nil_2. Qed.

Lemma elem_of_unique l x : x ∈ unique l ↔ x ∈ l.
Proof.
  pose proof (unique_foldl_elem l [] x) as Hl. rewrite elem_of_nil in Hl.
  unfold unique. tauto.
Qed.

Lemma unique_foldl_id l acc : NoDup (acc ++ l) → foldl unique_step acc l = acc ++ l.
Proof.
  revert acc. induction l as [|x l IH]; intros acc Hnd; simpl.
  - by rewrite app_nil_r.
  - apply NoDup_app in Hnd as Hnd'. destruct Hnd' as (Hacc & Hdisj & Hl).
    unfold unique_step at 2. rewrite decide_False.
    2:{ intros Hin. apply (Hdisj _ Hin). left. }
    rewrite IH; rewrite <-app_assoc; done.
Qed.

Lemma unique_NoDup_id l : NoDup l → unique l = l.
Proof. intros. by apply (unique_foldl_id l []). Qed.
End unique_facts.

Section sorted_facts.
Context {A : Type}.
Implicit Types (R : relation A) (l : list A).

Lemma StronglySorted_impl_elem R1 R2 l :
  (∀ x y, x ∈ l → y ∈ l → R1 x y → R2 x y) →
  StronglySorted R1 l → StronglySorted R2 l.
Proof.
  intros HR Hs. induction Hs as [|x l Hs IH Hx]; constructor.
  - apply IH. intros y z Hy Hz. apply HR; by right.
  - rewrite Forall_forall in Hx |- *. intros y Hy.
    apply HR; [left|by right|by apply Hx].
Qed.

Lemma StronglySorted_impl R1 R2 l :
  (∀ x y, R1 x y → R2 x y) → StronglySorted R1 l → StronglySorted R2 l.
Proof. intros HR. apply StronglySorted_impl_elem. auto. Qed.

Lemma StronglySorted_filter R (P : A → Prop) `{∀ x, Decision (P x)} l :
  StronglySorted R l → StronglySorted R (filter P l).
Proof.
  induction 1 as [|x l Hs IH Hx]; [constructor|].
  rewrite filter_cons. case_decide; [|done].
  constructor; [done|]. rewrite Forall_forall in Hx |- *.
  intros y [_ Hy]%list_elem_of_filter. by apply Hx.
Qed.

Lemma StronglySorted_reverse R l :
  StronglySorted R l → StronglySorted (flip R) (reverse l).
Proof.
  induction 1 as [|x l Hs IH Hx]; [constructor|].
  rewrite reverse_cons. apply StronglySorted_app_2; [|done|repeat constructor].
  intros y z Hy ->%list_elem_of_singleton. rewrite elem_of_reverse in Hy.
  rewrite Forall_forall in Hx. unfold flip. by apply Hx.
Qed.

Lemma StronglySorted_lookup R l :
  StronglySorted R l ↔
  ∀ i j x y, l !! i = Some x → l !! j = Some y → (i < j)%nat → R x y.
Proof.
  split.
  - induction 1 as [|z l Hs IH Hz]; intros i j x y Hi Hj Hij.
    + done.
    + destruct j as [|j]; [lia|]. simpl in Hj. destruct i as [|i]; simpl in Hi.
      * injection Hi as ->. rewrite Forall_forall in Hz.
        apply Hz. by eapply list_elem_of_lookup_2.
      * eapply IH; [done..|lia].
  - induction l as [|z l IH]; intros Hl; constructor.
    + apply IH. intros i j x y Hi Hj Hij. apply (Hl (S i) (S j)); [done..|lia].
    + apply Forall_forall. intros y [j Hj]%list_elem_of_lookup_1.
      apply (Hl 0%nat (S j)); [done..|lia].
Qed.

Lemma StronglySorted_NoDup R l :
  (∀ x, ¬ R x x) → StronglySorted R l → NoDup l.
Proof.
  intros Hirr. induction 1 as [|x l Hs IH Hx]; constructor; [|done].
  intros Hin. rewrite Forall_forall in Hx. by apply (Hirr x), Hx.
Qed.
End sorted_facts.

Section sort_facts.
Context {A : Type} (leb : A → A → bool).

Lemma sort_insert_perm x l : sort_insert leb x l ≡ₚ x :: l.
Proof.
  induction l as [|y l IH]; simpl; [done|].
  destruct (leb x y); [done|]. rewrite IH. apply Permutation_swap.
Qed.

Lemma stable_sort_perm l : stable_sort leb l ≡ₚ l.
Proof.
  induction l as [|x l IH]; simpl; [done|].
  by rewrite sort_insert_perm, IH.
Qed.

Lemma elem_of_stable_sort l x : x ∈ stable_sort leb l ↔ x ∈ l.
Proof. by rewrite stable_sort_perm. Qed.

Lemma stable_sort_length l : length (stable_sort leb l) = length l.
Proof. by rewrite stable_sort_perm. Qed.

Hypothesis leb_total : ∀ x y, leb x y = true ∨ leb y x = true.
Hypothesis leb_trans : ∀ x y z, leb x y = true → leb y z = true → leb x z = true.

Lemma sort_insert_lex (R : relation A) x l :
  Forall (R x) l → StronglySorted (lex_rel leb R) l →
  StronglySorted (lex_rel leb R) (sort_insert leb x l).
Proof.
  induction l as [|y l IH]; simpl; intros HR Hs.
  - repeat constructor.
  - apply StronglySorted_inv in Hs as [Hs Hy].
    apply Forall_cons in HR as [HRy HR].
    destruct (leb x y) eqn:Hxy.
    + constructor; [by constructor|].
      constructor; [by split|].
      rewrite Forall_forall in Hy, HR |- *. intros z Hz. split.
      * eapply leb_trans; [done|]. by apply Hy.
      * intros _. by apply HR.
    + constructor; [by apply IH|].
      rewrite (sort_insert_perm x l). constructor; [|done].
      split; [|by rewrite Hxy]. by destruct (leb_total x y) as [?|?]; [congruence|].
Qed.

(** A stable sort of a list that is in the order [R] yields the
    lexicographic order: that is what stability means. *)
Lemma stable_sort_lex (R : relation A) l :
  StronglySorted R l → StronglySorted (lex_rel leb R) (stable_sort leb l).
Proof.
  induction 1 as [|x l Hs IH Hx]; simpl; [constructor|].
  apply sort_insert_lex; [|done]. by rewrite stable_sort_perm.
Qed.

Lemma stable_sort_sorted l :
  StronglySorted (λ x y, leb x y = true) (stable_sort leb l).
Proof.
  assert (StronglySorted (λ _ _, True) l) as Hl.
  { induction l; constructor; [done|]. by apply Forall_true. }
  apply (stable_sort_lex _) in Hl.
  eapply StronglySorted_impl; [|done]. by intros ?? [? _].
Qed.
End sort_facts.

Lemma filter_none {A} (P : A → Prop) `{∀ x, Decision (P x)} (l : list A) :
  (∀ x, x ∈ l → ¬ P x) → filter P l = [].
Proof.
  induction l as [|x l IH]; [done|]. intros Hl.
  rewrite filter_cons_False; [|apply Hl; left].
  apply IH. intros y Hy. apply Hl. by right.
Qed.

Lemma filter_all {A} (P : A → Prop) `{∀ x, Decision (P x)} (l : list A) :
  (∀ x, x ∈ l → P x) → filter P l = l.
Proof.
  induction l as [|x l IH]; [done|]. intros Hl.
  rewrite filter_cons_True; [|apply Hl; left].
  f_equal. apply IH. intros y Hy. apply Hl. by right.
Qed.

Lemma foldl_Qcplus_shift a l : foldl Qcplus a l = (a + foldl Qcplus 0 l)%Qc.
Proof.
  revert a. induction l as [|y l IH]; intros a; simpl.
  - ring.
  - rewrite (IH (a + y)%Qc), (IH (0 + y)%Qc). ring.
Qed.

Lemma Qcsum_cons x l : Qcsum (x :: l) = (x + Qcsum l)%Qc.
Proof. unfold Qcsum. simpl. rewrite foldl_Qcplus_shift. ring. Qed.

Lemma Qcsum_perm l1 l2 : l1 ≡ₚ l2 → Qcsum l1 = Qcsum l2.
Proof.
  induction 1 as [|x l1 l2 _ IH|x y l|l1 l2 l3 _ IH1 _ IH2].
  - done.
  - by rewrite !Qcsum_cons, IH.
  - rewrite !Qcsum_cons. ring.
  - congruence.
Qed.

Lemma Qcsum_singleton x : Qcsum [x] = x.
Proof. unfold Qcsum. simpl. ring. Qed.

Lemma Qcsum_pos l : l ≠ [] → Forall (λ x, (0 < x)%Qc) l → (0 < Qcsum l)%Qc.
Proof.
  induction l as [|x l IH]; [done|]. intros _ [Hx Hl]%Forall_cons.
  rewrite Qcsum_cons. destruct l as [|y l].
  - by rewrite Qcplus_0_r.
  - assert (0 < Qcsum (y :: l))%Qc as Hs by by apply IH.
    apply Qclt_le_trans with (0 + Qcsum (y :: l))%Qc; [by rewrite Qcplus_0_l|].
    apply Qcplus_le_compat; [by apply Qclt_le_weak|apply Qcle_refl].
Qed.

Global Instance Z_leb_order : TotalOrderB Z.leb.
Proof. split; intros *; rewrite ?Z.leb_le; lia. Qed.

Global Instance pair_leb_order : TotalOrderB pair_leb.
Proof.
  split; unfold pair_leb.
  - intros [a b] [c d]; simpl. destruct (Z.ltb_spec a c), (Z.ltb_spec c a),
      (Z.eqb_spec a c), (Z.eqb_spec c a), (Z.leb_spec b d), (Z.leb_spec d b);
      simpl; auto; lia.
  - intros [a b] [c d] [e f]; simpl.
    destruct (Z.ltb_spec a c), (Z.ltb_spec c e), (Z.ltb_spec a e),
      (Z.eqb_spec a c), (Z.eqb_spec c e), (Z.eqb_spec a e),
      (Z.leb_spec b d), (Z.leb_spec d f), (Z.leb_spec b f); simpl; auto; lia.
  - intros [a b] [c d]; simpl. destruct (Z.ltb_spec a c), (Z.ltb_spec c a),
      (Z.eqb_spec a c), (Z.eqb_spec c a), (Z.leb_spec b d), (Z.leb_spec d b);
      simpl; intros; try discriminate; try lia. f_equal; lia.
Qed.

Global Instance coord_leb_order : TotalOrderB coord_leb.
Proof.
  split; unfold coord_leb.
  - intros [a b] [c d]; simpl. destruct (Nat.ltb_spec a c), (Nat.ltb_spec c a),
      (Nat.eqb_spec a c), (Nat.eqb_spec c a), (Nat.leb_spec b d), (Nat.leb_spec d b);
      simpl; auto; lia.
  - intros [a b] [c d] [e f]; simpl.
    destruct (Nat.ltb_spec a c), (Nat.ltb_spec c e), (Nat.ltb_spec a e),
      (Nat.eqb_spec a c), (Nat.eqb_spec c e), (Nat.eqb_spec a e),
      (Nat.leb_spec b d), (Nat.leb_spec d f), (Nat.leb_spec b f); simpl; auto; lia.
  - intros [a b] [c d]; simpl. destruct (Nat.ltb_spec a c), (Nat.ltb_spec c a),
      (Nat.eqb_spec a c), (Nat.eqb_spec c a), (Nat.leb_spec b d), (Nat.leb_spec d b);
      simpl; intros; try discriminate; try lia. f_equal; lia.
Qed.

Section groupby_facts.
Context `{EqDecision K} (kleb : K → K → bool) `{!TotalOrderB kleb}.
Variable fsum : list Qc → Qc.
Implicit Types (rows : list (K * Qc)) (k : K).

Lemma sorted_keys_strict (l : list K) :
  NoDup l → StronglySorted (key_lt kleb) (stable_sort kleb l).
Proof.
  intros Hnd.
  assert (NoDup (stable_sort kleb l)) as Hnd' by by rewrite stable_sort_perm.
  pose proof (stable_sort_sorted kleb kleb_total kleb_trans l) as Hs.
  induction Hs as [|x s Hs IH Hx]; constructor.
  - apply IH. by apply NoDup_cons in Hnd' as [_ ?].
  - apply NoDup_cons in Hnd' as [Hx' _].
    rewrite Forall_forall in Hx |- *. intros y Hy. split; [by apply Hx|].
    by intros ->.
Qed.

Lemma sorted_keys_unique (l1 l2 : list K) :
  NoDup l1 → l1 ≡ₚ l2 → stable_sort kleb l1 = stable_sort kleb l2.
Proof.
  intros Hnd Hp.
  apply (StronglySorted_unique_strong (key_lt kleb)).
  - intros x y _ _ [Hxy _] [Hyx _]. by apply kleb_antisym.
  - by apply sorted_keys_strict.
  - apply sorted_keys_strict. by rewrite <-Hp.
  - by rewrite !stable_sort_perm.
Qed.

Lemma groupby_sum_keys rows :
  (groupby_sum fsum kleb rows).*1 = stable_sort kleb (unique rows.*1).
Proof.
  unfold groupby_sum. rewrite <-list_fmap_compose. apply list_fmap_id.
Qed.

Lemma groupby_sum_keys_sorted rows :
  StronglySorted (key_lt kleb) (groupby_sum fsum kleb rows).*1.
Proof. rewrite groupby_sum_keys. apply sorted_keys_strict, NoDup_unique. Qed.

Lemma groupby_sum_NoDup rows : NoDup (groupby_sum fsum kleb rows).*1.
Proof.
  rewrite groupby_sum_keys, stable_sort_perm. apply NoDup_unique.
Qed.

Lemma elem_of_groupby_sum rows k v :
  (k, v) ∈ groupby_sum fsum kleb rows ↔
  k ∈ rows.*1 ∧ v = fsum (filter (λ r, r.1 = k) rows).*2.
Proof.
  unfold groupby_sum. rewrite list_elem_of_fmap. split.
  - intros (k' & [= -> ->] & Hk).
    by rewrite elem_of_stable_sort, elem_of_unique in Hk.
  - intros [Hk ->]. exists k. split; [done|].
    by rewrite elem_of_stable_sort, elem_of_unique.
Qed.

Lemma groupby_sum_length rows :
  length (groupby_sum fsum kleb rows) = length (unique rows.*1).
Proof. unfold groupby_sum. by rewrite length_fmap, stable_sort_length. Qed.

(** The keys do not depend on the order of the rows. *)
Lemma groupby_keys_perm rows rows' :
  rows ≡ₚ rows' →
  stable_sort kleb (unique rows.*1) = stable_sort kleb (unique rows'.*1).
Proof.
  intros Hp. apply sorted_keys_unique; [apply NoDup_unique|].
  apply NoDup_Permutation; [apply NoDup_unique..|].
  intros k. by rewrite !elem_of_unique, Hp.
Qed.

(** A sum that does not depend on the order of its terms does not depend on
    the order of the rows. *)
Lemma groupby_sum_perm rows rows' :
  (∀ l l', l ≡ₚ l' → fsum l = fsum l') →
  rows ≡ₚ rows' → groupby_sum fsum kleb rows = groupby_sum fsum kleb rows'.
Proof.
  intros Hsum Hp. unfold groupby_sum.
  assert (stable_sort kleb (unique rows.*1) = stable_sort kleb (unique rows'.*1)) as ->.
  { apply sorted_keys_unique; [apply NoDup_unique|].
    apply NoDup_Permutation; [apply NoDup_unique..|].
    intros k. by rewrite !elem_of_unique, Hp. }
  apply list_fmap_ext. intros _ k _. f_equal.
  apply Hsum. by rewrite Hp.
Qed.

(** Without repeated keys nothing is summed: the rows are only put in
    key order. *)
Lemma groupby_sum_NoDup_perm rows :
  (∀ x, fsum [x] = x) →
  NoDup rows.*1 → groupby_sum fsum kleb rows ≡ₚ rows.
Proof.
  intros Hone Hnd. unfold groupby_sum.
  rewrite stable_sort_perm, (unique_NoDup_id _ Hnd).
  rewrite <-list_fmap_compose.
  apply reflexive_eq. etrans; [|apply list_fmap_id].
  apply list_fmap_ext. intros i [k v] Hin%list_elem_of_lookup_2. simpl.
  f_equal.
  assert (filter (λ r', r'.1 = k) rows = [(k, v)]) as ->; [|apply Hone].
  clear -Hnd Hin. induction rows as [|[k' v'] rows IH]; [by apply elem_of_nil in Hin|].
  simpl in Hnd. apply NoDup_cons in Hnd as [Hk' Hnd].
  rewrite filter_cons. simpl. apply elem_of_cons in Hin as [[= <- <-]|Hin].
  - rewrite decide_True by done. f_equal.
    apply filter_none. intros [k2 v2] Hin2 ?. simpl in *.
    subst. apply Hk'. apply list_elem_of_fmap. by exists (k, v2).
  - rewrite decide_False; [by apply IH|]. intros ->. apply Hk'.
    apply list_elem_of_fmap. by exists (k, v).
Qed.
End groupby_facts.

Section enumerate_facts.
Context {A : Type}.
Implicit Types (l : list A).

Lemma enumerate_fst l : (enumerate l).*1 = seq 0 (length l).
Proof.
  apply list_eq. intros i. unfold enumerate.
  rewrite list_lookup_fmap, list_lookup_imap.
  destruct (l !! i) as [x|] eqn:E; simpl.
  - symmetry. apply lookup_seq_lt. by eapply lookup_lt_Some.
  - symmetry. apply lookup_seq_ge. by apply lookup_ge_None.
Qed.

Lemma enumerate_snd l : (enumerate l).*2 = l.
Proof.
  apply list_eq. intros i. unfold enumerate.
  rewrite list_lookup_fmap, list_lookup_imap. by destruct (l !! i).
Qed.

Lemma elem_of_enumerate l i x : (i, x) ∈ enumerate l ↔ l !! i = Some x.
Proof.
  unfold enumerate. rewrite elem_of_lookup_imap. split.
  - by intros (j & y & [= -> ->] & ?).
  - intros ?. by exists i, x.
Qed.

Lemma enumerate_NoDup l : NoDup (enumerate l).*1.
Proof. rewrite enumerate_fst. apply NoDup_seq. Qed.

Lemma dict_get_enumerate l i : PyDict.get (enumerate l) i = l !! i.
Proof.
  destruct (l !! i) as [x|] eqn:E.
  - apply dict_get_elem; [apply enumerate_NoDup|by apply elem_of_enumerate].
  - apply dict_get_None. rewrite enumerate_fst, elem_of_seq.
    apply lookup_ge_None in E. lia.
Qed.

Lemma of_items_enumerate l : PyDict.of_items (enumerate l) = enumerate l.
Proof. apply dict_of_items_NoDup, enumerate_NoDup. Qed.

Lemma inverse_fst l : (inverse l).*1 = l.
Proof.
  unfold inverse. rewrite <-list_fmap_compose.
  rewrite <-(enumerate_snd l) at 2. done.
Qed.

Lemma elem_of_inverse l i x : (x, i) ∈ inverse l ↔ l !! i = Some x.
Proof.
  unfold inverse. rewrite list_elem_of_fmap. split.
  - intros ([j y] & [= -> ->] & ?). by apply elem_of_enumerate.
  - intros ?. exists (i, x). split; [done|]. by apply elem_of_enumerate.
Qed.

Context `{EqDecision A}.

Lemma of_items_inverse l : NoDup l → PyDict.of_items (inverse l) = inverse l.
Proof. intros. apply dict_of_items_NoDup. by rewrite inverse_fst. Qed.

Lemma dict_get_inverse l x i :
  NoDup l → PyDict.get (inverse l) x = Some i ↔ l !! i = Some x.
Proof.
  intros Hnd. rewrite <-elem_of_inverse. split.
  - apply dict_get_Some.
  - apply dict_get_elem. by rewrite inverse_fst.
Qed.

Lemma dict_get_idx_of l x :
  NoDup l → x ∈ l → PyDict.get (inverse l) x = Some (idx_of l x).
Proof.
  intros Hnd [i Hi]%list_elem_of_lookup_1. unfold idx_of.
  apply dict_get_inverse in Hi as ->; done.
Qed.

Lemma lookup_idx_of l x : NoDup l → x ∈ l → l !! idx_of l x = Some x.
Proof. intros. by apply dict_get_inverse, dict_get_idx_of. Qed.

Lemma idx_of_lt l x : NoDup l → x ∈ l → (idx_of l x < length l)%nat.
Proof. intros. eapply lookup_lt_Some. by apply lookup_idx_of. Qed.

Lemma mapM_idx_of l (xs : list A) :
  NoDup l → (∀ x, x ∈ xs → x ∈ l) →
  mapM (PyDict.get (inverse l)) xs = Some (idx_of l <$> xs).
Proof.
  intros Hnd Hxs. apply mapM_Some. apply Forall2_fmap_r, Forall_Forall2_diag.
  apply Forall_forall. intros x Hx. by apply dict_get_idx_of, Hxs.
Qed.
End enumerate_facts.

Lemma filter_fmap_comm {A B} (f : A → B) (P : B → Prop) `{∀ y, Decision (P y)}
    (l : list A) :
  filter P (f <$> l) = f <$> filter (λ x, P (f x)) l.
Proof.
  induction l as [|x l IH]; [done|]. csimpl.
  rewrite !filter_cons. case_decide; csimpl; by rewrite IH.
Qed.

Lemma StronglySorted_fmap_inv {A B} (f : A → B) (R : relation B) (l : list A) :
  StronglySorted R (f <$> l) → StronglySorted (λ x y, R (f x) (f y)) l.
Proof.
  induction l as [|x l IH]; csimpl; [constructor|].
  intros [Hl Hx]%StronglySorted_inv. constructor; [by apply IH|].
  by rewrite Forall_fmap in Hx.
Qed.

Lemma zip_fmap_diag {A B C} (f : A → B) (g : A → C) (l : list A) :
  zip (f <$> l) (g <$> l) = (λ x, (f x, g x)) <$> l.
Proof. induction l as [|x l IH]; csimpl; [done|]. by rewrite IH. Qed.

Section loader_facts.
Variable cfg : Settings.
Variable fpow : Qc → Qc → Qc.
Variable fsum : list Qc → Qc.
Implicit Types (df : list Event) (e : ScoreEntry).

Lemma aggregate_pairs now df :
  pair_of <$> aggregate cfg fpow fsum now df
  = stable_sort pair_leb (unique (ev_pair <$> df)).
Proof.
  unfold aggregate. rewrite <-list_fmap_compose.
  etrans; [|etrans; [apply (groupby_sum_keys pair_leb)|]].
  - apply list_fmap_ext. by intros _ [[u i] s] _.
  - by rewrite <-list_fmap_compose.
Qed.

Lemma aggregate_sorted now df :
  StronglySorted (λ a b, key_lt pair_leb (pair_of a) (pair_of b))
    (aggregate cfg fpow fsum now df).
Proof.
  apply StronglySorted_fmap_inv. rewrite aggregate_pairs.
  apply sorted_keys_strict; [apply _|apply NoDup_unique].
Qed.

Lemma aggregate_NoDup now df : NoDup (pair_of <$> aggregate cfg fpow fsum now df).
Proof. rewrite aggregate_pairs, stable_sort_perm. apply NoDup_unique. Qed.

Lemma elem_of_aggregate now df e :
  e ∈ aggregate cfg fpow fsum now df ↔
  pair_of e ∈ ev_pair <$> df ∧ score e = pair_score cfg fpow fsum now df (pair_of e).
Proof.
  unfold aggregate. rewrite list_elem_of_fmap. split.
  - intros ([k v] & -> & Hin). simpl in *.
    apply elem_of_groupby_sum in Hin as [Hk ->].
    rewrite <-list_fmap_compose in Hk. unfold pair_of. simpl.
    rewrite <-surjective_pairing. split; [done|].
    unfold pair_score. rewrite filter_fmap_comm, <-list_fmap_compose. done.
  - intros [Hk Hs]. exists (pair_of e, score e). split; [by destruct e|].
    apply elem_of_groupby_sum. rewrite <-list_fmap_compose. split; [done|].
    rewrite Hs. unfold pair_score. by rewrite filter_fmap_comm, <-list_fmap_compose.
Qed.

Lemma aggregate_perm now df df' :
  (∀ l l', l ≡ₚ l' → fsum l = fsum l') →
  df ≡ₚ df' → aggregate cfg fpow fsum now df = aggregate cfg fpow fsum now df'.
Proof.
  intros Hsum Hp. unfold aggregate. f_equal.
  apply groupby_sum_perm; [apply _|done|]. by rewrite Hp.
Qed.

(** The pairs of the aggregated frame do not depend on the order of the
    rows. *)
Lemma aggregate_pairs_perm now df df' :
  df ≡ₚ df' →
  pair_of <$> aggregate cfg fpow fsum now df
  = pair_of <$> aggregate cfg fpow fsum now df'.
Proof.
  intros Hp. rewrite !aggregate_pairs.
  apply sorted_keys_unique; [apply _|apply NoDup_unique|].
  apply NoDup_Permutation; [apply NoDup_unique..|].
  intros k. by rewrite !elem_of_unique, Hp.
Qed.

Lemma aggregate_nil now df : aggregate cfg fpow fsum now df = [] → df = [].
Proof.
  intros Hagg. destruct df as [|ev df]; [done|].
  assert (ev_pair ev ∈ pair_of <$> aggregate cfg fpow fsum now (ev :: df)) as Hin.
  { rewrite aggregate_pairs, elem_of_stable_sort, elem_of_unique. left. }
  rewrite Hagg in Hin. by apply elem_of_nil in Hin.
Qed.

Lemma read_sql_perm table table' db_now :
  table ≡ₚ table' → read_sql cfg table db_now ≡ₚ read_sql cfg table' db_now.
Proof. intros Hp. unfold read_sql. by rewrite Hp. Qed.

Lemma load_and_process_rows self table db_now now :
  read_sql cfg table db_now ≠ [] →
  load_and_process cfg fpow fsum self (Some table) db_now now
  = Some (loaded cfg fpow fsum now (read_sql cfg table db_now)).
Proof.
  intros Hne. unfold load_and_process. simpl.
  rewrite bool_decide_eq_false_2 by done.
  set (agg := aggregate cfg fpow fsum now _).
  set (users := unique (user_id <$> agg)).
  set (items := unique (object_id <$> agg)).
  cbv zeta. simpl. fold (inverse users) (inverse items).
  rewrite !of_items_inverse, !of_items_enumerate by apply NoDup_unique.
  rewrite (mapM_idx_of users);
    [|apply NoDup_unique|by intros x ?; apply elem_of_unique].
  rewrite (mapM_idx_of items);
    [|apply NoDup_unique|by intros x ?; apply elem_of_unique].
  simpl. unfold csr_from_coo. rewrite bool_decide_eq_true_2.
  - simpl. unfold loaded. fold agg users items. do 4 f_equal.
    rewrite <-!list_fmap_compose. 
    by rewrite !zip_fmap_diag.
  - rewrite !length_fmap. split_and!; [done..| |].
    + apply Forall_fmap, Forall_fmap, Forall_forall. intros e He. simpl.
      apply idx_of_lt; [apply NoDup_unique|]. apply elem_of_unique.
      by apply list_elem_of_fmap_2.
    + apply Forall_fmap, Forall_fmap, Forall_forall. intros e He. simpl.
      apply idx_of_lt; [apply NoDup_unique|]. apply elem_of_unique.
      by apply list_elem_of_fmap_2.
Qed.

Lemma load_and_process_empty self table db_now now :
  read_sql cfg table db_now = [] →
  load_and_process cfg fpow fsum self (Some table) db_now now
  = Some (self, ([], csr_zeros (0, 0)%nat)).
Proof.
  intros He. unfold load_and_process. simpl.
  by rewrite bool_decide_eq_true_2.
Qed.

Lemma coords_inj agg e1 e2 :
  e1 ∈ agg → e2 ∈ agg → coords agg e1 = coords agg e2 → pair_of e1 = pair_of e2.
Proof.
  intros H1 H2 [= Hu Hi]. unfold pair_of.
  assert (∀ (f : ScoreEntry → Z) e, e ∈ agg →
            unique (f <$> agg) !! idx_of (unique (f <$> agg)) (f e) = Some (f e)) as Hl.
  { intros f e He. apply lookup_idx_of; [apply NoDup_unique|].
    apply elem_of_unique. by apply list_elem_of_fmap_2. }
  pose proof (Hl user_id e1 H1) as Hu1. pose proof (Hl user_id e2 H2) as Hu2.
  pose proof (Hl object_id e1 H1) as Hi1. pose proof (Hl object_id e2 H2) as Hi2.
  rewrite Hu in Hu1. rewrite Hi in Hi1. congruence.
Qed.

Lemma pair_of_inj_on agg e1 e2 :
  NoDup (pair_of <$> agg) → e1 ∈ agg → e2 ∈ agg →
  pair_of e1 = pair_of e2 → e1 = e2.
Proof.
  induction agg as [|e agg IH]; csimpl; [by intros _ ?%elem_of_nil|].
  intros [Hn Hnd]%NoDup_cons [->|H1]%elem_of_cons [->|H2]%elem_of_cons Heq.
  - done.
  - destruct Hn. rewrite Heq. by apply list_elem_of_fmap_2.
  - destruct Hn. rewrite <-Heq. by apply list_elem_of_fmap_2.
  - by apply IH.
Qed.

Lemma coords_NoDup agg :
  NoDup (pair_of <$> agg) → NoDup (coords agg <$> agg).
Proof.
  intros Hnd. apply NoDup_fmap_2_strong; [|by eapply NoDup_fmap_1].
  intros e1 e2 H1 H2 Hc. apply (pair_of_inj_on agg); [done..|].
  by apply (coords_inj agg).
Qed.

Lemma loaded_entries_perm now df :
  let out := loaded cfg fpow fsum now df in
  entries out.2.2 ≡ₚ (λ e, (coords out.2.1 e, score e)) <$> out.2.1.
Proof.
  simpl. apply (groupby_sum_NoDup_perm coord_leb Qcsum); [apply Qcsum_singleton|].
  rewrite <-list_fmap_compose. apply coords_NoDup, aggregate_NoDup.
Qed.

Lemma loaded_entries_NoDup now df :
  NoDup (entries (loaded cfg fpow fsum now df).2.2).*1.
Proof. apply (groupby_sum_NoDup coord_leb). Qed.

Lemma loaded_entry now df e :
  let out := loaded cfg fpow fsum now df in
  e ∈ out.2.1 →
  PyDict.get (entries out.2.2) (coords out.2.1 e) = Some (score e).
Proof.
  intros out He. apply dict_get_elem; [apply loaded_entries_NoDup|].
  unfold out. rewrite loaded_entries_perm. fold out.
  by apply (list_elem_of_fmap_2 (λ e, (coords out.2.1 e, score e))).
Qed.

Lemma loaded_entry_inv now df k v :
  let out := loaded cfg fpow fsum now df in
  (k, v) ∈ entries out.2.2 → ∃ e, e ∈ out.2.1 ∧ k = coords out.2.1 e ∧ v = score e.
Proof.
  intros out. unfold out at 1. rewrite loaded_entries_perm.
  intros (e & [= -> ->] & He)%list_elem_of_fmap. by exists e.
Qed.

Lemma loaded_nnz now df :
  nnz (loaded cfg fpow fsum now df).2.2 = length (loaded cfg fpow fsum now df).2.1.
Proof.
  unfold nnz. rewrite loaded_entries_perm. by rewrite length_fmap.
Qed.

(** Every score is positive when the power is positive and the sum of
    positive terms is. *)
Lemma pair_score_pos now df k :
  (∀ b x, (0 < b)%Qc → (0 < fpow b x)%Qc) → (0 < TIME_DECAY_RATE cfg)%Qc →
  (∀ l, l ≠ [] → Forall (λ x, (0 < x)%Qc) l → (0 < fsum l)%Qc) →
  k ∈ ev_pair <$> df → (0 < pair_score cfg fpow fsum now df k)%Qc.
Proof.
  intros Hpow Hrate Hsum (ev & -> & Hev)%list_elem_of_fmap. unfold pair_score.
  apply Hsum.
  - intros Hnil%fmap_nil_inv.
    assert (ev ∈ filter (λ ev', ev_pair ev' = ev_pair ev) df) as Hin
      by by apply list_elem_of_filter.
    rewrite Hnil in Hin. by apply elem_of_nil in Hin.
  - apply Forall_fmap, Forall_forall. intros ev' _. simpl. by apply Hpow.
Qed.
End loader_facts.

Lemma history_leb_total a b : history_leb a b = true ∨ history_leb b a = true.
Proof.
  unfold history_leb.
  destruct (Z.ltb_spec (user_id a) (user_id b)), (Z.ltb_spec (user_id b) (user_id a)),
    (Z.eqb_spec (user_id a) (user_id b)), (Z.eqb_spec (user_id b) (user_id a));
    simpl; auto; try lia.
  destruct (total Qcle (score a) (score b)); [right|left]; by apply bool_decide_eq_true.
Qed.

Lemma history_leb_trans a b c :
  history_leb a b = true → history_leb b c = true → history_leb a c = true.
Proof.
  unfold history_leb.
  destruct (Z.ltb_spec (user_id a) (user_id b)), (Z.ltb_spec (user_id b) (user_id c)),
    (Z.ltb_spec (user_id a) (user_id c)),
    (Z.eqb_spec (user_id a) (user_id b)), (Z.eqb_spec (user_id b) (user_id c)),
    (Z.eqb_spec (user_id a) (user_id c));
    simpl; auto; try lia; try discriminate.
  rewrite !bool_decide_eq_true. intros ??. by etrans.
Qed.

Section groupby_list_facts.
Implicit Types (df : list ScoreEntry) (u : Z).

Lemma groupby_list_get df u :
  u ∈ user_id <$> df →
  PyDict.get (groupby_list df) u
  = Some (object_id <$> filter (λ e, user_id e = u) df).
Proof.
  intros Hu. unfold groupby_list.
  rewrite dict_of_items_NoDup.
  - apply dict_get_elem.
    + rewrite <-list_fmap_compose, list_fmap_id, stable_sort_perm.
      apply NoDup_unique.
    + apply list_elem_of_fmap. exists u. split; [done|].
      by rewrite elem_of_stable_sort, elem_of_unique.
  - rewrite <-list_fmap_compose, list_fmap_id, stable_sort_perm.
    apply NoDup_unique.
Qed.

Lemma groupby_list_keys df :
  (groupby_list df).*1 = stable_sort Z.leb (unique (user_id <$> df)).
Proof.
  unfold groupby_list. rewrite dict_of_items_NoDup.
  - by rewrite <-list_fmap_compose, list_fmap_id.
  - rewrite <-list_fmap_compose, list_fmap_id, stable_sort_perm.
    apply NoDup_unique.
Qed.

Lemma groupby_list_get_None df u :
  u ∉ user_id <$> df → PyDict.get (groupby_list df) u = None.
Proof.
  intros Hu. apply dict_get_None.
  by rewrite groupby_list_keys, elem_of_stable_sort, elem_of_unique.
Qed.
End groupby_list_facts.

(** The history of a user, for a frame in (user, item) order. *)
Lemma history_sorted (df : list ScoreEntry) (u : Z) :
  StronglySorted (λ a b, key_lt pair_leb (pair_of a) (pair_of b)) df →
  StronglySorted history_order
    (filter (λ e, user_id e = u) (stable_sort history_leb df)).
Proof.
  intros Hdf.
  apply (stable_sort_lex history_leb history_leb_total history_leb_trans) in Hdf.
  apply (StronglySorted_filter _ (λ e, user_id e = u)) in Hdf.
  eapply StronglySorted_impl_elem; [|done].
  intros a b [Ha _]%list_elem_of_filter [Hb _]%list_elem_of_filter [Hab Hba].
  unfold history_leb in Hab, Hba. rewrite Ha, Hb in Hab, Hba.
  rewrite Z.ltb_irrefl, Z.eqb_refl in Hab, Hba. simpl in Hab, Hba.
  apply bool_decide_eq_true in Hab. unfold history_order.
  destruct (decide (score a = score b)) as [Heq|Hne].
  - right. split; [done|].
    destruct Hba as [Hle Hne].
    { apply bool_decide_eq_true. rewrite Heq. reflexivity. }
    unfold pair_leb, pair_of in Hle. simpl in Hle.
    rewrite Ha, Hb, Z.ltb_irrefl, Z.eqb_refl in Hle. simpl in Hle.
    apply Z.leb_le in Hle.
    assert (object_id a ≠ object_id b); [|lia].
    intros Ho. apply Hne. unfold pair_of. congruence.
  - left. apply Qcle_lt_or_eq in Hab as [?|?]; [done|]. by destruct Hne.
Qed.

Section omap_facts.
Context {A B : Type}.
Implicit Types (f : A → option B) (l : list A).

Lemma omap_reverse f l : omap f (reverse l) = reverse (omap f l).
Proof.
  induction l as [|x l IH]; [done|].
  rewrite reverse_cons, omap_app, IH. csimpl.
  destruct (f x); simpl; by rewrite ?reverse_cons, ?app_nil_r.
Qed.

Lemma omap_ext_elem f g l :
  (∀ x, x ∈ l → f x = g x) → omap f l = omap g l.
Proof.
  induction l as [|x l IH]; [done|]. intros Hl. csimpl.
  rewrite (Hl x), IH; [done| |left]. intros y ?. apply Hl. by right.
Qed.

Lemma omap_fmap_Some (g : A → B) l : omap (λ x, Some (g x)) l = g <$> l.
Proof. induction l as [|x l IH]; csimpl; by rewrite ?IH. Qed.

Lemma omap_total f (g : A → B) l :
  (∀ x, x ∈ l → f x = Some (g x)) → omap f l = g <$> l.
Proof.
  intros Hl. rewrite <-omap_fmap_Some. by apply omap_ext_elem.
Qed.
End omap_facts.

Lemma omap_lookup_seq {A} (t : list A) : omap (t !!.) (seq 0 (length t)) = t.
Proof.
  induction t as [|x t IH] using rev_ind; [done|].
  rewrite length_app. simpl. rewrite Nat.add_1_r, seq_S, omap_app. simpl.
  rewrite list_lookup_middle by done. simpl.
  f_equal. etrans; [|apply IH]. apply omap_ext_elem.
  intros i Hi%elem_of_seq. apply lookup_app_l. lia.
Qed.

Section permute_facts.
Context {I : Type} (S : Sorter) (HS : argsort_ok S).
Implicit Types (t : list (I * Qc)).

Lemma permute_perm t : permute S t ≡ₚ t.
Proof.
  unfold permute. rewrite (argsort_perm S HS), length_fmap.
  by rewrite omap_lookup_seq.
Qed.

Lemma permute_snd t : (permute S t).*2 = omap (t.*2 !!.) (S t.*2).
Proof.
  unfold permute. rewrite list_fmap_omap. apply omap_ext_elem.
  intros i _. by rewrite list_lookup_fmap.
Qed.

Lemma permute_sorted t : StronglySorted (λ a b, (a.2 ≤ b.2)%Qc) (permute S t).
Proof.
  apply StronglySorted_fmap_inv. rewrite permute_snd.
  apply (argsort_sorted S HS).
Qed.

Lemma argsort_lt t i : i ∈ S t.*2 → (i < length t)%nat.
Proof.
  rewrite (argsort_perm S HS), elem_of_seq, length_fmap. lia.
Qed.

Lemma permute_lookup t i :
  permute S t !! i = S t.*2 !! i ≫= (t !!.).
Proof.
  unfold permute.
  assert (∀ k, k ∈ S t.*2 → is_Some (t !! k)) as Hk.
  { intros k Hk. apply lookup_lt_is_Some. by apply argsort_lt. }
  revert i. induction (S t.*2) as [|k p IH]; intros i; [done|]. csimpl.
  destruct (Hk k) as [x Hx]; [left|]. rewrite Hx. simpl.
  destruct i as [|i]; simpl; [done|]. apply IH. intros k' ?. apply Hk. by right.
Qed.

(** A stable sorter keeps the order [R] of the table among equal values. *)
Lemma permute_stable (R : relation (I * Qc)) t :
  stable S → StronglySorted R t →
  StronglySorted (λ a b, (a.2 ≤ b.2)%Qc ∧ (a.2 = b.2 → R a b)) (permute S t).
Proof.
  intros Hst Ht. apply StronglySorted_lookup. intros i j a b Hi Hj Hij.
  split.
  { pose proof (permute_sorted t) as Hs.
    rewrite StronglySorted_lookup in Hs. by eapply Hs. }
  intros Heq. rewrite permute_lookup in Hi, Hj.
  destruct (S t.*2 !! i) as [x|] eqn:Hx; [|done].
  destruct (S t.*2 !! j) as [y|] eqn:Hy; [|done]. simpl in Hi, Hj.
  assert (x < y)%nat as Hxy.
  { eapply (Hst t.*2 i j); [done..|].
    rewrite !list_lookup_fmap, Hi, Hj. simpl. by rewrite Heq. }
  rewrite StronglySorted_lookup in Ht. by eapply Ht.
Qed.
End permute_facts.

(** A descending [sort_values] is the reversed sort of the reversed series. *)
Lemma sort_values_desc {I} (S : Sorter) (s : list (I * Qc)) :
  argsort_ok S → sort_values S s false = reverse (permute S (reverse s)).
Proof.
  intros HS. unfold sort_values, nargsort, permute.
  rewrite omap_reverse. f_equal. rewrite fmap_reverse.
  set (p := S (reverse s.*2)).
  assert (∀ k, k ∈ p → (k < length s)%nat) as Hp.
  { intros k. unfold p. rewrite (argsort_perm S HS), elem_of_seq, length_reverse,
      length_fmap. lia. }
  rewrite length_fmap.
  rewrite (omap_total _ (λ k, length s - 1 - k)%nat).
  - clear -Hp. induction p as [|k p IH]; [done|]. csimpl.
    rewrite IH by (intros; apply Hp; by right).
    rewrite (@reverse_lookup _ s k) by (apply Hp; left).
    replace (length s - Datatypes.S k)%nat with (length s - 1 - k)%nat by lia. done.
  - intros k Hk%Hp. rewrite (@reverse_lookup _ (seq 0 (length s)) k);
      rewrite length_seq; [|done].
    rewrite lookup_seq_lt by lia. f_equal. lia.
Qed.

Section sort_values_facts.
Context {I : Type} (S : Sorter) (HS : argsort_ok S).
Implicit Types (s : list (I * Qc)).

Lemma sort_values_perm s : sort_values S s false ≡ₚ s.
Proof.
  rewrite sort_values_desc by done.
  by rewrite reverse_Permutation, (permute_perm S HS), reverse_Permutation.
Qed.

Lemma sort_values_sorted s :
  StronglySorted (λ a b, (b.2 ≤ a.2)%Qc) (sort_values S s false).
Proof.
  rewrite sort_values_desc by done.
  apply (StronglySorted_reverse (λ a b, (a.2 ≤ b.2)%Qc)).
  by apply permute_sorted.
Qed.

(** With a stable sorter the series order decides among equal values. *)
Lemma sort_values_stable (R : relation (I * Qc)) s :
  stable S → StronglySorted R s →
  StronglySorted (λ a b, (b.2 ≤ a.2)%Qc ∧ (a.2 = b.2 → R a b))
    (sort_values S s false).
Proof.
  intros Hst Hs. rewrite sort_values_desc by done.
  apply StronglySorted_reverse in Hs.
  apply (permute_stable S HS _ _ Hst) in Hs.
  apply StronglySorted_reverse in Hs.
  eapply StronglySorted_impl; [|done].
  unfold flip. intros a b [? Hab]. split; [done|]. intros ?. by apply Hab.
Qed.
End sort_values_facts.

(** The sorters built from a comparison. *)
Section argsort_by_facts.
Variable leb : nat * Qc → nat * Qc → bool.
Hypothesis leb_total : ∀ x y, leb x y = true ∨ leb y x = true.
Hypothesis leb_trans : ∀ x y z, leb x y = true → leb y z = true → leb x z = true.
Hypothesis leb_le : ∀ x y, leb x y = true → (x.2 ≤ y.2)%Qc.

Lemma argsort_by_values l :
  omap (l !!.) (argsort_by leb l) = (stable_sort leb (enumerate l)).*2.
Proof.
  unfold argsort_by.
  assert (∀ p, p ∈ stable_sort leb (enumerate l) → l !! p.1 = Some p.2) as Hp.
  { intros [i x]. rewrite elem_of_stable_sort. apply elem_of_enumerate. }
  induction (stable_sort leb (enumerate l)) as [|p q IH]; [done|]. csimpl.
  rewrite (Hp p) by left. simpl. f_equal. apply IH. intros ??. apply Hp. by right.
Qed.

Lemma argsort_by_ok : argsort_ok (argsort_by leb).
Proof.
  split; intros l.
  - unfold argsort_by. by rewrite stable_sort_perm, enumerate_fst.
  - rewrite argsort_by_values.
    eapply StronglySorted_fmap; [|apply (stable_sort_sorted leb leb_total leb_trans)].
    apply leb_le.
Qed.
End argsort_by_facts.

Lemma enumerate_sorted {A} (l : list A) :
  StronglySorted (λ a b, (a.1 < b.1)%nat) (enumerate l).
Proof.
  apply StronglySorted_fmap_inv. rewrite enumerate_fst.
  apply StronglySorted_lookup. intros i j x y Hi Hj Hij.
  apply lookup_seq in Hi as [-> _]. apply lookup_seq in Hj as [-> _]. lia.
Qed.

Lemma insertion_argsort_ok : argsort_ok insertion_argsort.
Proof.
  apply argsort_by_ok.
  - intros x y. rewrite !bool_decide_eq_true. apply (total Qcle).
  - intros x y z. rewrite !bool_decide_eq_true. apply Qcle_trans.
  - intros x y. by rewrite bool_decide_eq_true.
Qed.

Lemma insertion_argsort_stable : stable insertion_argsort.
Proof.
  intros l i j x y Hi Hj Hij Heq. unfold insertion_argsort, argsort_by in *.
  set (leb := λ a b : nat * Qc, bool_decide (a.2 ≤ b.2)%Qc) in *.
  assert (StronglySorted (lex_rel leb (λ a b, (a.1 < b.1)%nat))
            (stable_sort leb (enumerate l))) as Hs.
  { apply stable_sort_lex; [| |apply enumerate_sorted].
    - intros a b. unfold leb. rewrite !bool_decide_eq_true. apply (total Qcle).
    - intros a b c. unfold leb. rewrite !bool_decide_eq_true. apply Qcle_trans. }
  rewrite list_lookup_fmap in Hi, Hj.
  destruct (stable_sort leb (enumerate l) !! i) as [[x' vx]|] eqn:Hx; [|done].
  destruct (stable_sort leb (enumerate l) !! j) as [[y' vy]|] eqn:Hy; [|done].
  simpl in Hi, Hj. injection Hi as ->. injection Hj as ->.
  rewrite StronglySorted_lookup in Hs.
  destruct (Hs i j _ _ Hx Hy Hij) as [_ Hlt]. simpl in Hlt. apply Hlt.
  assert (l !! x = Some vx) as Hvx.
  { apply elem_of_enumerate, (elem_of_stable_sort leb). by eapply list_elem_of_lookup_2. }
  assert (l !! y = Some vy) as Hvy.
  { apply elem_of_enumerate, (elem_of_stable_sort leb). by eapply list_elem_of_lookup_2. }
  unfold leb. simpl. apply bool_decide_eq_true.
  rewrite Hvx, Hvy in Heq. injection Heq as ->. reflexivity.
Qed.

Lemma py_slice_to_sublist {A} (l : list A) n : py_slice_to l n `sublist_of` l.
Proof. unfold py_slice_to. case_decide; apply sublist_take. Qed.

Lemma py_slice_to_nil {A} n : py_slice_to (@nil A) n = [].
Proof. unfold py_slice_to. case_decide; by rewrite take_nil. Qed.

Lemma py_slice_to_nonneg {A} (l : list A) n :
  0 ≤ n → py_slice_to l n = take (Z.to_nat n) l.
Proof. intros. unfold py_slice_to. by rewrite decide_True. Qed.

Lemma py_slice_to_length {A} (l : list A) n :
  0 ≤ n → Z.of_nat (length (py_slice_to l n)) ≤ n.
Proof. intros. rewrite py_slice_to_nonneg, length_take by done. lia. Qed.

Lemma py_slice_to_NoDup {A} (l : list A) n : NoDup l → NoDup (py_slice_to l n).
Proof. intros. eapply sublist_NoDup; [done|apply py_slice_to_sublist]. Qed.

Lemma py_slice_to_elem {A} (l : list A) n x : x ∈ py_slice_to l n → x ∈ l.
Proof. intros. eapply elem_of_sublist; [done|apply py_slice_to_sublist]. Qed.

Lemma NoDup_snd_inj {A B} (l : list (A * B)) a1 a2 b :
  NoDup l.*2 → (a1, b) ∈ l → (a2, b) ∈ l → a1 = a2.
Proof.
  induction l as [|[a' b'] l IH]; csimpl; [by intros _ ?%elem_of_nil|].
  intros [Hn Hnd]%NoDup_cons H1 H2.
  apply elem_of_cons in H1 as [H1|H1]; apply elem_of_cons in H2 as [H2|H2].
  - congruence.
  - injection H1 as -> ->. destruct Hn.
    by apply (list_elem_of_fmap_2 snd _ (a2, b')).
  - injection H2 as -> ->. destruct Hn.
    by apply (list_elem_of_fmap_2 snd _ (a1, b')).
  - by apply IH.
Qed.

(** ** The factor model *)

Section factor_model_facts.
Implicit Types (scored : list (nat * Qc)) (F : Factors).

Lemma top_k_sublist_perm scored N :
  ∃ l, top_k scored N `sublist_of` l ∧ l ≡ₚ scored.*1.
Proof.
  unfold top_k. eexists. split.
  - rewrite fmap_take. apply sublist_take.
  - by rewrite stable_sort_perm.
Qed.

Lemma top_k_elem scored N i : i ∈ top_k scored N → i ∈ scored.*1.
Proof.
  destruct (top_k_sublist_perm scored N) as (l & Hs & Hp).
  intros Hi. rewrite <-Hp. by eapply elem_of_sublist.
Qed.

Lemma top_k_NoDup scored N : NoDup scored.*1 → NoDup (top_k scored N).
Proof.
  destruct (top_k_sublist_perm scored N) as (l & Hs & Hp).
  intros Hnd. eapply sublist_NoDup; [|done]. by rewrite Hp.
Qed.

Lemma scored_fst {A} (g : nat → A → Qc) (l : list A) :
  (imap (λ j f, (j, g j f)) l).*1 = seq 0 (length l).
Proof.
  apply list_eq. intros i. rewrite list_lookup_fmap, list_lookup_imap.
  destruct (l !! i) as [x|] eqn:E; simpl.
  - symmetry. apply lookup_seq_lt. by eapply lookup_lt_Some.
  - symmetry. apply lookup_seq_ge. by apply lookup_ge_None.
Qed.

(** [filter_already_liked_items=True] leaves out the stored columns. *)
Lemma factor_recommend_spec F userid user_items N ids :
  recommend (factor_model F) userid user_items N true = Some ids →
  NoDup ids ∧ ∀ i, i ∈ ids → i ∉ user_items.*1.
Proof.
  simpl. destruct (user_factors F !! userid) as [uf|]; simpl; [|done].
  intros [= <-]. split.
  - apply top_k_NoDup. eapply sublist_NoDup; [|apply fmap_sublist, sublist_filter].
    rewrite (scored_fst (λ _ f, dot uf f)). apply NoDup_seq.
  - intros i Hi%top_k_elem.
    apply list_elem_of_fmap in Hi as ([j s] & -> & Hin).
    by apply list_elem_of_filter in Hin as [Hin _].
Qed.

Lemma factor_similar_spec F itemid N ids :
  similar_items (factor_model F) itemid N = Some ids → NoDup ids.
Proof.
  simpl. destruct (item_factors F !! itemid) as [f|]; simpl; [|done].
  intros [= <-]. apply top_k_NoDup.
  rewrite (scored_fst (λ _ g, dot f g)). apply NoDup_seq.
Qed.
End factor_model_facts.

(** Translating indices to ids with the index-to-id map of the loader. *)
Lemma mapM_enumerate_spec (items : list Z) (ids : list nat) (rec_ids : list Z) :
  NoDup items → NoDup ids →
  mapM (PyDict.get (enumerate items)) ids = Some rec_ids →
  NoDup rec_ids ∧ Forall2 (λ idx iid, items !! idx = Some iid) ids rec_ids.
Proof.
  intros Hit Hids Hm. apply mapM_Some in Hm.
  assert (Forall2 (λ idx iid, items !! idx = Some iid) ids rec_ids) as Hf.
  { eapply Forall2_impl; [done|]. intros idx iid Hg. simpl in Hg.
    by rewrite dict_get_enumerate in Hg. }
  split; [|done]. clear Hm.
  induction Hf as [|idx iid ids rec_ids Hi Hf IH]; [constructor|].
  apply NoDup_cons in Hids as [Hn Hids]. constructor; [|by apply IH].
  intros Hin. apply Hn.
  apply list_elem_of_lookup_1 in Hin as [k Hk].
  destruct (Forall2_lookup_r _ _ _ _ _ Hf Hk) as (idx' & Hidx' & Hl).
  assert (idx = idx') as -> by apply (NoDup_lookup items idx idx' iid Hit Hi Hl).
  by eapply list_elem_of_lookup_2.
Qed.

Section engine_facts.
Variable cfg : Settings.
Variable fpow : Qc → Qc → Qc.
Variable fsum : list Qc → Qc.
Variable S : Sorter.
Variable fit : csr_matrix → option ALSModel.

Lemma main_engine_inv table db_now now loader agg m engine :
  main_engine cfg fpow fsum S fit (Some table) db_now now
  = Some (loader, agg, m, engine) →
  read_sql cfg table db_now ≠ []
  ∧ (loader, (agg, m)) = loaded cfg fpow fsum now (read_sql cfg table db_now)
  ∧ ∃ mdl, fit m = Some mdl
    ∧ user_map engine = inverse (unique (user_id <$> agg))
    ∧ item_inv_map engine = enumerate (unique (object_id <$> agg))
    ∧ history_df engine = agg
    ∧ user_history_index engine = groupby_list (stable_sort history_leb agg)
    ∧ popular_items engine = (sort_values S (item_totals fsum agg) false).*1
    ∧ model engine = Some mdl
    ∧ is_trained engine = true
    ∧ user_items_matrix engine = Some m
    ∧ _item_id_map_cache engine = None.
Proof.
  unfold main_engine. intros Hm.
  destruct (decide (read_sql cfg table db_now = [])) as [He|Hne].
  { rewrite load_and_process_empty in Hm by done. by simpl in Hm. }
  rewrite load_and_process_rows in Hm by done. simpl in Hm.
  case_bool_decide; [done|].
  unfold train in Hm.
  match type of Hm with context [fit ?x] => destruct (fit x) as [mdl|] eqn:Hfit end;
    [|done].
  simpl in Hm. injection Hm as <- <- <- <-.
  split; [done|]. split; [done|]. exists mdl. by split_and!.
Qed.

Lemma main_engine_agg table db_now now loader agg m engine :
  main_engine cfg fpow fsum S fit (Some table) db_now now
  = Some (loader, agg, m, engine) →
  agg = aggregate cfg fpow fsum now (read_sql cfg table db_now).
Proof. intros (_ & [= _ -> _] & _)%main_engine_inv. done. Qed.
End engine_facts.

(** ** Popularity *)

Lemma item_totals_elem (fsum : list Qc → Qc) (df : list ScoreEntry) i t :
  (i, t) ∈ item_totals fsum df ↔
  i ∈ object_id <$> df
  ∧ t = fsum (score <$> filter (λ e, object_id e = i) df).
Proof.
  unfold item_totals. rewrite (elem_of_groupby_sum Z.leb).
  rewrite <-list_fmap_compose, filter_fmap_comm, <-list_fmap_compose. done.
Qed.

Lemma item_totals_sorted (fsum : list Qc → Qc) (df : list ScoreEntry) :
  StronglySorted (λ a b : Z * Qc, a.1 < b.1) (item_totals fsum df).
Proof.
  apply StronglySorted_fmap_inv.
  eapply StronglySorted_impl; [|apply (groupby_sum_keys_sorted Z.leb)].
  intros a b [Hle%Z.leb_le Hne]. lia.
Qed.

Section retrieval_facts.
Variable cfg : Settings.
Implicit Types (self : RecommendationEngine).

Lemma discovery_cases self uid :
  get_discovery_rec cfg self uid = []
  ∨ ∃ user_idx matrix user_items m ids,
      PyDict.get (user_map self) uid = Some user_idx
      ∧ user_items_matrix self = Some matrix
      ∧ getrow matrix user_idx = Some user_items
      ∧ model self = Some m
      ∧ recommend m user_idx user_items (REC_DISCOVERY_COUNT cfg) true = Some ids
      ∧ mapM (PyDict.get (item_inv_map self)) ids
        = Some (get_discovery_rec cfg self uid).
Proof.
  unfold get_discovery_rec.
  destruct (negb (is_trained self) || negb (PyDict.contains (user_map self) uid));
    [by left|].
  destruct (PyDict.get (user_map self) uid) as [user_idx|]; [|by left].
  destruct (user_items_matrix self) as [matrix|]; [|by left]. simpl.
  destruct (getrow matrix user_idx) as [user_items|] eqn:Hg; [|by left]. simpl.
  destruct (model self) as [m|]; [|by left]. simpl.
  destruct (recommend m _ _ _ _) as [ids|] eqn:Hr; [|by left]. simpl.
  destruct (mapM _ ids) as [rec_ids|] eqn:Hm; [|by left]. simpl.
  right. by exists user_idx, matrix, user_items, m, ids.
Qed.

Lemma related_state self item_id :
  (get_related_items cfg self item_id).2
  = if is_trained self
    then set_item_id_map_cache self (related_cache self)
    else self.
Proof.
  unfold get_related_items, related_cache.
  destruct (is_trained self); simpl; [|done].
  by destruct (PyDict.get _ item_id).
Qed.

Lemma related_cases self item_id :
  (get_related_items cfg self item_id).1 = []
  ∨ ∃ item_idx m ids rec_ids,
      PyDict.get (related_cache self) item_id = Some item_idx
      ∧ model self = Some m
      ∧ similar_items m item_idx (REC_RELATED_COUNT cfg + 1) = Some ids
      ∧ mapM (PyDict.get (item_inv_map self))
             (filter (λ idx, idx ≠ item_idx) ids) = Some rec_ids
      ∧ (get_related_items cfg self item_id).1
        = py_slice_to rec_ids (REC_RELATED_COUNT cfg).
Proof.
  unfold get_related_items, related_cache.
  destruct (is_trained self); simpl; [|by left].
  destruct (PyDict.get _ item_id) as [item_idx|] eqn:Hc; [|by left]. simpl.
  destruct (model self) as [m|]; [|by left]. simpl.
  destruct (similar_items m _ _) as [ids|] eqn:Hs; [|by left]. simpl.
  destruct (mapM _ _) as [rec_ids|] eqn:Hm; [|by left]. simpl.
  right. by exists item_idx, m, ids, rec_ids.
Qed.

Lemma related_unknown self item_id :
  PyDict.get (related_cache self) item_id = None →
  (get_related_items cfg self item_id).1 = [].
Proof.
  intros Hc. destruct (related_cases self item_id) as [?|(?&?&?&?&?&_)];
    [done|congruence].
Qed.

End retrieval_facts.

Section batch_facts.
Variable cfg : Settings.
Variable fpow : Qc → Qc → Qc.
Variable fsum : list Qc → Qc.
Lemma idx_of_unique {A} `{EqDecision A} (l : list A) (x : A) (i : nat) :
  NoDup l → l !! i = Some x → idx_of l x = i.
Proof.
  intros Hnd Hi. eapply NoDup_lookup; [done| |done].
  apply lookup_idx_of; [done|]. by eapply list_elem_of_lookup_2.
Qed.

Lemma loaded_row now df (e : ScoreEntry) user_items :
  let out := loaded cfg fpow fsum now df in
  e ∈ out.2.1 →
  getrow out.2.2 (coords out.2.1 e).1 = Some user_items →
  (coords out.2.1 e).2 ∈ user_items.*1.
Proof.
  intros out He. unfold getrow. case_decide; [|done]. intros [= <-].
  rewrite <-list_fmap_compose.
  apply list_elem_of_fmap. exists (coords out.2.1 e, score e). split; [done|].
  apply list_elem_of_filter. split; [done|].
  apply dict_get_Some. by apply loaded_entry.
Qed.

End batch_facts.

Section steps_facts.
Variable cfg : Settings.

Lemma set_cache_same e c : same_but_cache e (set_item_id_map_cache e c).
Proof. by repeat split. Qed.

Lemma related_cache_ok e :
  cache_ok e → related_cache e = item_id_map e.
Proof.
  unfold cache_ok, related_cache. by destruct (_item_id_map_cache e).
Qed.

Lemma related_step e item_id :
  cache_ok e →
  same_but_cache e (get_related_items cfg e item_id).2
  ∧ cache_ok (get_related_items cfg e item_id).2.
Proof.
  intros Hc. rewrite related_state. destruct (is_trained e).
  - split.
    + apply set_cache_same.
    + unfold cache_ok. simpl. by rewrite related_cache_ok.
  - split; [by repeat split|done].
Qed.

Lemma engine_steps_inv e e' :
  cache_ok e → engine_steps cfg e e' → same_but_cache e e' ∧ cache_ok e'.
Proof.
  intros Hc. induction 1 as [|e' item_id _ [Hs Hc']].
  - split; [by repeat split|done].
  - destruct (related_step e' item_id Hc') as [Hs' Hc''].
    split; [|done]. unfold same_but_cache in *.
    destruct Hs as (?&?&?&?&?&?&?&?), Hs' as (?&?&?&?&?&?&?&?).
    split_and!; congruence.
Qed.

(** Once the reverse map is cached, a call leaves the engine as it is. *)
Lemma related_state_cached e item_id :
  _item_id_map_cache e ≠ None → (get_related_items cfg e item_id).2 = e.
Proof.
  intros Hc. rewrite related_state. destruct (is_trained e) eqn:Ht; [|done].
  unfold related_cache, set_item_id_map_cache.
  destruct e as [? ? ? ? ? ? ? ? [c|]]; simpl in *; [|done]. by rewrite Ht.
Qed.
End steps_facts.

Lemma user_items_NoDup (l : list ScoreEntry) (u : Z) :
  NoDup (pair_of <$> l) → NoDup (object_id <$> filter (λ e, user_id e = u) l).
Proof.
  induction l as [|e l IH]; csimpl; [constructor|].
  intros [Hn Hnd]%NoDup_cons. rewrite filter_cons. case_decide as Hu; [|by apply IH].
  csimpl. constructor; [|by apply IH].
  intros (e' & Ho & [Hu' He']%list_elem_of_filter)%list_elem_of_fmap.
  apply Hn. apply list_elem_of_fmap. exists e'. split; [|done].
  unfold pair_of. congruence.
Qed.

Lemma batch_items_values (agg : list ScoreEntry) (x : Z) :
  x ∈ unique (object_id <$> agg) →
  x ∈ object_id <$> agg
  ∧ x ∈ PyDict.values (enumerate (unique (object_id <$> agg))).
Proof.
  intros Hx. unfold PyDict.values. rewrite enumerate_snd.
  split; [by apply elem_of_unique|done].
Qed.

(** ** Keys *)

Lemma string_app_length (a b : string) :
  String.length (a +:+ b) = (String.length a + String.length b)%nat.
Proof. induction a as [|x a IH]; simpl; [done|]. by rewrite IH. Qed.

(** Two ways to split one string: the shorter head is a prefix of the other. *)
Lemma string_app_split (a b s t : string) :
  a +:+ s = b +:+ t → (String.length a ≤ String.length b)%nat →
  ∃ c, b = a +:+ c ∧ s = c +:+ t.
Proof.
  revert b. induction a as [|x a IH]; intros b Heq Hlen; simpl in *.
  - by exists b.
  - destruct b as [|y b]; simpl in *; [lia|].
    injection Heq as -> Heq. destruct (IH b Heq) as (c & -> & ->); [lia|].
    by exists c.
Qed.

Lemma string_app_inj_r (a b s : string) : a +:+ s = b +:+ s → a = b.
Proof.
  assert (∀ a b, (String.length a ≤ String.length b)%nat →
                 a +:+ s = b +:+ s → a = b) as Hle.
  { clear. intros a b Hlen Heq.
    destruct (string_app_split a b s s Heq Hlen) as (c & -> & Hs).
    apply (f_equal String.length) in Hs. rewrite string_app_length in Hs.
    destruct c; simpl in *; [|lia].
    clear. induction a as [|x a IH]; [done|].
    change (String x a = String x (a +:+ EmptyString)). by rewrite <-IH. }
  intros Heq. destruct (Nat.le_ge_cases (String.length a) (String.length b)).
  - by apply Hle.
  - symmetry. by apply Hle.
Qed.

Section key_facts.
Variable cfg : Settings.

Lemma key_hist_inj u u' : key_hist cfg u = key_hist cfg u' → u = u'.
Proof.
  unfold key_hist. intros H%String.app_inj%String.app_inj%string_app_inj_r.
  by apply pretty_Z_inj.
Qed.

Lemma key_disc_inj u u' : key_disc cfg u = key_disc cfg u' → u = u'.
Proof.
  unfold key_disc. intros H%String.app_inj%String.app_inj%string_app_inj_r.
  by apply pretty_Z_inj.
Qed.

Lemma key_related_inj i i' : key_related cfg i = key_related cfg i' → i = i'.
Proof.
  unfold key_related. intros H%String.app_inj%String.app_inj%string_app_inj_r.
  by apply pretty_Z_inj.
Qed.

Lemma key_hist_disc u u' : key_hist cfg u ≠ key_disc cfg u'.
Proof.
  unfold key_hist, key_disc. intros H%String.app_inj%String.app_inj.
  destruct (Nat.le_ge_cases (String.length (pretty u)) (String.length (pretty u')))
    as [Hlen|Hlen].
  - destruct (string_app_split _ _ _ _ H Hlen) as (c & _ & Hc).
    apply (f_equal String.length) in Hc. rewrite string_app_length in Hc.
    simpl in Hc. lia.
  - symmetry in H. destruct (string_app_split _ _ _ _ H Hlen) as (c & _ & Hc).
    destruct c as [|x [|y [|z c]]]; simpl in Hc; try discriminate.
    apply (f_equal String.length) in Hc. simpl in Hc.
    rewrite string_app_length in Hc. simpl in Hc. lia.
Qed.

Lemma key_hist_related u i : key_hist cfg u ≠ key_related cfg i.
Proof. unfold key_hist, key_related. intros H%String.app_inj. discriminate. Qed.

Lemma key_disc_related u i : key_disc cfg u ≠ key_related cfg i.
Proof. unfold key_disc, key_related. intros H%String.app_inj. discriminate. Qed.

Lemma key_hist_popular u : key_hist cfg u ≠ popular_key cfg.
Proof. unfold key_hist, popular_key. intros H%String.app_inj. discriminate. Qed.

Lemma key_disc_popular u : key_disc cfg u ≠ popular_key cfg.
Proof. unfold key_disc, popular_key. intros H%String.app_inj. discriminate. Qed.

Lemma key_related_popular i : key_related cfg i ≠ popular_key cfg.
Proof. unfold key_related, popular_key. intros H%String.app_inj. discriminate. Qed.
End key_facts.

(** ** The publisher *)

Section publisher_facts.
Variable cfg : Settings.
Implicit Types (db : keyspace) (pipe : list RedisCmd).

Lemma save_user_cmds pipe entry :
  save_user cfg pipe entry = pipe ++ user_cmds cfg entry.
Proof.
  destruct entry as [uid recs]. unfold save_user, user_cmds, key_cmds. simpl.
  destruct (history recs) as [|h hs], (discovery recs) as [|d ds]; simpl;
    rewrite <-?app_assoc; done.
Qed.

Lemma save_item_cmds pipe entry :
  save_item cfg pipe entry = pipe ++ item_cmds cfg entry.
Proof.
  destruct entry as [iid l]. unfold save_item, item_cmds, key_cmds. simpl.
  destruct l; simpl; rewrite <-?app_assoc; done.
Qed.

Lemma foldl_cmds {A} (f : list RedisCmd → A → list RedisCmd)
    (g : A → list RedisCmd) pipe (l : list A) :
  (∀ p x, f p x = p ++ g x) → foldl f pipe l = pipe ++ (l ≫= g).
Proof.
  intros Hf. revert pipe. induction l as [|x l IH]; intros pipe; csimpl.
  - by rewrite app_nil_r.
  - by rewrite IH, Hf, <-app_assoc.
Qed.

Lemma save_results_pipeline_cmds user_recs item_recs :
  save_results_pipeline cfg user_recs item_recs
  = (user_recs ≫= user_cmds cfg) ++ (item_recs ≫= item_cmds cfg).
Proof.
  unfold save_results_pipeline, PyDict.items.
  rewrite (foldl_cmds _ (item_cmds cfg)), (foldl_cmds _ (user_cmds cfg));
    auto using save_user_cmds, save_item_cmds.
Qed.

Lemma exec_cmd_other db c k : cmd_key c ≠ k → exec_cmd db c !! k = db !! k.
Proof.
  destruct c as [k'|k' vs|k' secs]; simpl; intros Hk.
  - by rewrite lookup_delete_ne.
  - case_bool_decide; [done|]. destruct (db !! k'); by rewrite lookup_insert_ne.
  - destruct (db !! k'); [|done].
    case_bool_decide; by rewrite ?lookup_insert_ne, ?lookup_delete_ne.
Qed.

Lemma execute_other db pipe k :
  (∀ c, c ∈ pipe → cmd_key c ≠ k) → execute db pipe !! k = db !! k.
Proof.
  unfold execute. revert db. induction pipe as [|c pipe IH]; intros db Hk; simpl.
  - done.
  - rewrite IH by (intros; apply Hk; by right).
    apply exec_cmd_other, Hk. left.
Qed.

Lemma execute_app db pipe1 pipe2 :
  execute db (pipe1 ++ pipe2) = execute (execute db pipe1) pipe2.
Proof. apply foldl_app. Qed.

Lemma execute_key_cmds db k l :
  0 < REDIS_EXPIRE_SECONDS cfg →
  execute db (key_cmds cfg k l) !! k = published cfg l.
Proof.
  intros Hs. unfold key_cmds, published, execute.
  destruct (decide (l = [])) as [->|Hl]; simpl.
  - by rewrite lookup_delete_eq.
  - rewrite bool_decide_eq_false_2 by done.
    rewrite lookup_delete_eq, lookup_insert_eq.
    rewrite bool_decide_eq_true_2 by done. by rewrite lookup_insert_eq.
Qed.

Lemma key_cmds_key k l c : c ∈ key_cmds cfg k l → cmd_key c = k.
Proof.
  unfold key_cmds. destruct (decide (l = [])).
  - by intros ->%list_elem_of_singleton.
  - rewrite !elem_of_cons, elem_of_nil. by intros [->|[->|[->|[]]]].
Qed.

Lemma user_cmds_key entry c :
  c ∈ user_cmds cfg entry →
  cmd_key c = key_hist cfg entry.1 ∨ cmd_key c = key_disc cfg entry.1.
Proof.
  unfold user_cmds. rewrite elem_of_app.
  intros [?%key_cmds_key|?%key_cmds_key]; auto.
Qed.

Lemma item_cmds_key entry c :
  c ∈ item_cmds cfg entry → cmd_key c = key_related cfg entry.1.
Proof. apply key_cmds_key. Qed.

(** The pipeline never names the key of the popularity ranking. *)
Lemma pipeline_not_popular user_recs item_recs c :
  c ∈ save_results_pipeline cfg user_recs item_recs →
  cmd_key c ≠ popular_key cfg.
Proof.
  rewrite save_results_pipeline_cmds, elem_of_app, !list_elem_of_bind.
  intros [(entry & [->| ->]%user_cmds_key & _)|(entry & ->%item_cmds_key & _)].
  - apply key_hist_popular.
  - apply key_disc_popular.
  - apply key_related_popular.
Qed.
End publisher_facts.

Section publish.
Variable cfg : Settings.
Implicit Types (db : keyspace).

Lemma execute_segment db pre seg post k v :
  (∀ db0, execute db0 seg !! k = v) →
  (∀ c, c ∈ post → cmd_key c ≠ k) →
  execute db (pre ++ seg ++ post) !! k = v.
Proof.
  intros Hseg Hpost. by rewrite !execute_app, execute_other.
Qed.

Lemma split_NoDup_keys {V} (l1 l2 : list (Z * V)) k v entry :
  NoDup (l1 ++ (k, v) :: l2).*1 → entry ∈ l2 → entry.1 ≠ k.
Proof.
  rewrite fmap_app, fmap_cons. intros (_ & _ & [Hk _]%NoDup_cons)%NoDup_app.
  intros Hin Heq. apply Hk. apply list_elem_of_fmap. by exists entry.
Qed.

(** No run of the publisher touches the key of the popularity ranking. *)
Lemma publish_keeps_popular_key (user_recs : dict Z UserRecs)
    (item_recs : dict Z (list Z)) db :
  execute db (save_results_pipeline cfg user_recs item_recs) !! popular_key cfg
  = db !! popular_key cfg.
Proof. apply execute_other. intros c. apply pipeline_not_popular. Qed.
End publish.

Section aggregation.
Variable cfg : Settings.
Variable fpow : Qc → Qc → Qc.
Variable fsum : list Qc → Qc.

Lemma load_and_process_total self table db_now now :
  ∃ loader m,
    load_and_process cfg fpow fsum self (Some table) db_now now
    = Some (loader, (aggregate cfg fpow fsum now (read_sql cfg table db_now), m)).
Proof.
  destruct (decide (read_sql cfg table db_now = [])) as [He|Hne].
  - rewrite load_and_process_empty, He by done. by eexists _, _.
  - rewrite load_and_process_rows by done. by eexists _, _.
Qed.

Lemma load_and_process_perm self table table' db_now now :
  (∀ l l', l ≡ₚ l' → fsum l = fsum l') →
  table ≡ₚ table' →
  load_and_process cfg fpow fsum self (Some table) db_now now
  = load_and_process cfg fpow fsum self (Some table') db_now now.
Proof.
  intros Hsum Hp. pose proof (read_sql_perm cfg _ _ db_now Hp) as Hdf.
  destruct (decide (read_sql cfg table db_now = [])) as [He|Hne].
  - rewrite !load_and_process_empty; [done| |done].
    rewrite He in Hdf. by apply Permutation_nil in Hdf.
  - rewrite !load_and_process_rows; [|by intros He; rewrite He in Hdf;
                                       apply Permutation_nil_r in Hdf|done].
    unfold loaded. by rewrite (aggregate_perm cfg fpow fsum now _ _ Hsum Hdf).
Qed.

End aggregation.

(** * The properties of the specification *)

(** ** The batch of the examples *)

Lemma w_load_eq :
  load_and_process settings day_pow Qcsum DataLoader_init (Some w_table) w_now w_now
  = Some w_out.
Proof. vm_compute. reflexivity. Qed.

Lemma w_run_eq :
  main_engine settings day_pow Qcsum insertion_argsort (fit_with (λ _, w_factors))
    (Some w_table) w_now w_now
  = Some (w_loader, w_agg, w_matrix, w_engine).
Proof. unfold main_engine. rewrite w_load_eq. reflexivity. Qed.

Lemma day_pow_pos (b x : Qc) : (0 < b)%Qc → (0 < day_pow b x)%Qc.
Proof.
  intros Hb. unfold day_pow. induction (Z.to_nat (Qfloor x)) as [|n IH]; simpl.
  - done.
  - by apply Qcmult_pos_pos.
Qed.

(** The engine of [main_engine] is the engine [main] predicts with. *)
Lemma main_uses_main_engine (cfg : Settings) (fpow : Qc → Qc → Qc)
    (fsum : list Qc → Qc) (S : Sorter)
    (fit : csr_matrix → option ALSModel) (conn : option (list HistoryRow))
    (db_now now : Z) (server : option keyspace) (loader : DataLoader)
    (agg : list ScoreEntry) (m : csr_matrix) (engine : RecommendationEngine) :
  main_engine cfg fpow fsum S fit conn db_now now = Some (loader, agg, m, engine) →
  let user_recs := user_loop cfg engine (unique (user_id <$> agg)) in
  let item_recs := (related_loop cfg engine (unique (object_id <$> agg))).1 in
  main cfg fpow fsum S fit conn db_now now server
  = ([ModelFit m; PipelineExecute (save_results_pipeline cfg user_recs item_recs)],
     save_results_to_redis cfg user_recs item_recs server).
Proof.
  unfold main_engine, main.
  destruct (load_and_process _ _ _ _ _ _ _) as [[loader' [agg' m']]|]; [|done].
  simpl. case_bool_decide; [done|].
  destruct (train _ _ _) as [engine'|]; [|done]. simpl.
  by intros [= -> -> -> ->].
Qed.

(** The end-to-end example of the specification: the event that is two
    hundred days old is filtered, the pair (1, 100) scores 0.95^0 + 0.95^1,
    and the history of user 1 is [100]. *)
Example end_to_end_example :
  ((λ e, this (score e)) <$> filter (λ e, pair_of e = (1, 100)) w_agg)
  = [Qred (195 # 100)]
  ∧ get_history_rec settings w_engine 1 = [100].
Proof. split; vm_compute; reflexivity. Qed.

(** ** C1: the fallback key *)

(** C1 (not met by the code).  The claim wants the key
    [rec:sys:global:popular] to hold the popularity ranking after every
    batch run.  No command of the pipeline names that key: whatever the run,
    the key holds after it what it held before, so on a fresh cache it is
    absent. *)
Theorem C1_popular_key_never_written (cfg : Settings) (fpow : Qc → Qc → Qc) (fsum : list Qc → Qc)
    (S : Sorter) (fit : csr_matrix → option ALSModel)
    (conn : option (list HistoryRow)) (db_now now : Z) (db : keyspace) :
  ∃ db', (main cfg fpow fsum S fit conn db_now now (Some db)).2 = Some db'
         ∧ db' !! popular_key cfg = db !! popular_key cfg
         ∧ ∀ pipe c, PipelineExecute pipe
                       ∈ (main cfg fpow fsum S fit conn db_now now (Some db)).1 →
                     c ∈ pipe → cmd_key c ≠ popular_key cfg.
Proof.
  unfold main.
  destruct (load_and_process _ _ _ _ _ _ _) as [[loader [agg m]]|].
  2:{ exists db. split_and!; [done..|]. intros pipe c [=]%list_elem_of_singleton. }
  case_bool_decide.
  { exists db. split_and!; [done..|]. intros pipe c [=]%list_elem_of_singleton. }
  destruct (train _ _ _) as [engine|].
  2:{ exists db. split_and!; [done..|]. intros pipe c. simpl.
      rewrite !elem_of_cons, elem_of_nil. by intros [[=]|[[=]|[]]]. }
  eexists. split_and!; [done|apply publish_keeps_popular_key|].
  intros pipe c. simpl. rewrite !elem_of_cons, elem_of_nil.
  intros [[=]|[[= ->]|[]]]. apply pipeline_not_popular.
Qed.

(** The run on the small batch: the engine has a ranking, the cache does not
    get it. *)
Example popular_key_absent_after_run :
  popular_items w_engine = [100; 200; 300; 400]
  ∧ ∃ db', (main settings day_pow Qcsum insertion_argsort (fit_with (λ _, w_factors))
              (Some w_table) w_now w_now (Some ∅)).2 = Some db'
           ∧ db' !! "rec:sys:global:popular" = None
           ∧ is_Some (db' !! "rec:sys:user:1:history").
Proof.
  split; [vm_compute; reflexivity|]. eexists. split; [reflexivity|].
  split; vm_compute; eauto.
Qed.

(** ** C2: discovery leaves out what the user has seen *)

(** C2.  For every user and every limit [REC_DISCOVERY_COUNT], an item the
    discovery operation returns for user [u] is no item of [u]'s aggregated
    interactions, and row [u] of the interaction matrix stores no entry for
    it. *)
Theorem C2_discovery_excludes_history (cfg : Settings) (fpow : Qc → Qc → Qc) (fsum : list Qc → Qc)
    (S : Sorter) (als_fit : csr_matrix → Factors) (table : list HistoryRow)
    (db_now now : Z) (loader : DataLoader) (agg : list ScoreEntry)
    (m : csr_matrix) (engine : RecommendationEngine) (u iid : Z) :
  main_engine cfg fpow fsum S (fit_with als_fit) (Some table) db_now now
  = Some (loader, agg, m, engine) →
  iid ∈ get_discovery_rec cfg engine u →
  (∀ e, e ∈ agg → user_id e = u → object_id e ≠ iid)
  ∧ (∀ ui ii, PyDict.get (user_id_to_idx loader) u = Some ui →
              PyDict.get (item_id_to_idx loader) iid = Some ii →
              PyDict.get (entries m) (ui, ii) = None ∧ csr_at m ui ii = 0%Qc).
Proof.
  intros Hmain Hin.
  apply main_engine_inv in Hmain
    as (Hne & Hload & mdl & Hfit & Hum & Hiim & _ & _ & _ & Hmdl & _ & Hmat & _).
  set (df := read_sql cfg table db_now) in *.
  injection Hload as -> -> ->.
  set (agg := aggregate cfg fpow fsum now df) in *.
  set (users := unique (user_id <$> agg)) in *.
  set (items := unique (object_id <$> agg)) in *.
  assert (NoDup users) as Husers by apply NoDup_unique.
  assert (NoDup items) as Hitems by apply NoDup_unique.
  assert (∀ e, e ∈ agg → user_id e = u → object_id e ≠ iid) as Hpart1.
  { intros e He Hu Hi.
    destruct (discovery_cases cfg engine u)
      as [Hnil|(ui & matrix & row & m' & ids & Hgu & Hm & Hrow & Hm' & Hrec & HmapM)].
    { rewrite Hnil in Hin. by apply elem_of_nil in Hin. }
    rewrite Hum in Hgu. rewrite Hiim in HmapM. rewrite Hmat in Hm.
    injection Hm as <-. rewrite Hmdl in Hm'. injection Hm' as <-.
    unfold fit_with in Hfit. injection Hfit as <-.
    apply factor_recommend_spec in Hrec as [Hnd Hliked].
    apply mapM_enumerate_spec in HmapM as [_ Hf]; [|done..].
    apply list_elem_of_lookup_1 in Hin as [k Hk].
    destruct (Forall2_lookup_r _ _ _ _ _ Hf Hk) as (idx & Hidx & Hl).
    apply (Hliked idx); [by eapply list_elem_of_lookup_2|].
    apply dict_get_inverse in Hgu; [|done].
    pose proof (loaded_row cfg fpow fsum now df e row) as Hr. simpl in Hr.
    fold agg users items in Hr. unfold coords in Hr. simpl in Hr.
    fold agg users items in Hr.
    rewrite Hu, Hi, (idx_of_unique users u ui), (idx_of_unique items iid idx) in Hr
      by done.
    by apply Hr. }
  split; [done|]. intros ui ii Hui Hii. simpl in Hui, Hii.
  apply dict_get_inverse in Hui; [|done]. apply dict_get_inverse in Hii; [|done].
  assert (PyDict.get (entries (loaded cfg fpow fsum now df).2.2) (ui, ii) = None) as Hnone.
  { destruct (PyDict.get _ (ui, ii)) as [v|] eqn:Hg; [|done]. exfalso.
    apply dict_get_Some, loaded_entry_inv in Hg as (e & He & [= Hcu Hci] & _).
    simpl in He. fold agg in He, Hcu, Hci. fold users in Hcu. fold items in Hci.
    assert (e ∈ agg) as He' by done.
    apply (Hpart1 e He').
    - assert (users !! ui = Some (user_id e)) as Hx; [|congruence].
      rewrite Hcu. apply lookup_idx_of; [done|].
      apply elem_of_unique. by apply list_elem_of_fmap_2.
    - assert (items !! ii = Some (object_id e)) as Hx; [|congruence].
      rewrite Hci. apply lookup_idx_of; [done|].
      apply elem_of_unique. by apply list_elem_of_fmap_2. }
  change (PyDict.get (entries (loaded cfg fpow fsum now df).2.2) (ui, ii) = None
          ∧ csr_at (loaded cfg fpow fsum now df).2.2 ui ii = 0%Qc).
  split; [done|]. unfold csr_at. by rewrite Hnone.
Qed.

(** User 1 of the small batch is offered item 400, which the user never
    saw. *)
Lemma C2_discovery_excludes_history_witness :
  (∀ e, e ∈ w_agg → user_id e = 1 → object_id e ≠ 400)
  ∧ (∀ ui ii, PyDict.get (user_id_to_idx w_loader) 1 = Some ui →
              PyDict.get (item_id_to_idx w_loader) 400 = Some ii →
              PyDict.get (entries w_matrix) (ui, ii) = None
              ∧ csr_at w_matrix ui ii = 0%Qc).
Proof.
  apply (C2_discovery_excludes_history settings day_pow Qcsum insertion_argsort
           (λ _, w_factors) w_table w_now w_now w_loader w_agg w_matrix
           w_engine 1 400).
  - apply w_run_eq.
  - vm_compute. constructor.
Defined.

(** ** C3: related items *)

(** Whatever the factor model returns, the loop of [get_related_items]
    drops the index of the query item, and the slice caps the list. *)
Lemma related_excludes_self (cfg : Settings) (self : RecommendationEngine)
    (item_id : Z) :
  NoDup (PyDict.values (item_inv_map self)) →
  cache_ok self →
  0 ≤ REC_RELATED_COUNT cfg →
  (item_id ∉ (get_related_items cfg self item_id).1)
  ∧ (Z.of_nat (length (get_related_items cfg self item_id).1)
     ≤ REC_RELATED_COUNT cfg).
Proof.
  intros Hnd Hc Hn.
  destruct (related_cases cfg self item_id)
    as [->|(item_idx & m & ids & rec_ids & Hget & _ & _ & Hm & ->)].
  { split; [apply not_elem_of_nil|simpl; lia]. }
  split; [|by apply py_slice_to_length].
  intros Hin%py_slice_to_elem.
  rewrite related_cache_ok in Hget by done. unfold item_id_map in Hget.
  rewrite dict_of_items_NoDup in Hget.
  2:{ rewrite <-list_fmap_compose. apply Hnd. }
  apply dict_get_Some, list_elem_of_fmap in Hget as ([i v] & [= -> ->] & Hiv).
  apply mapM_Some in Hm.
  apply list_elem_of_lookup_1 in Hin as [k Hk].
  destruct (Forall2_lookup_r _ _ _ _ _ Hm Hk) as (idx & Hidx & Hl).
  apply list_elem_of_lookup_2, list_elem_of_filter in Hidx as [Hne _].
  apply dict_get_Some in Hl. apply Hne.
  by apply (NoDup_snd_inj (item_inv_map self) idx i v).
Qed.

(** C3.  For every item, at every state of the engine of a batch run and
    for every factor model, the related-items operation does not return the
    item itself, and the list has at most [REC_RELATED_COUNT] elements. *)
Theorem C3_related_excludes_self (cfg : Settings) (fpow : Qc → Qc → Qc) (fsum : list Qc → Qc)
    (S : Sorter) (fit : csr_matrix → option ALSModel) (table : list HistoryRow)
    (db_now now : Z) (loader : DataLoader) (agg : list ScoreEntry)
    (m : csr_matrix) (engine engine' : RecommendationEngine) (item_id : Z) :
  main_engine cfg fpow fsum S fit (Some table) db_now now
  = Some (loader, agg, m, engine) →
  engine_steps cfg engine engine' →
  0 ≤ REC_RELATED_COUNT cfg →
  (item_id ∉ (get_related_items cfg engine' item_id).1)
  ∧ (Z.of_nat (length (get_related_items cfg engine' item_id).1)
     ≤ REC_RELATED_COUNT cfg).
Proof.
  intros Hmain Hsteps Hn.
  apply main_engine_inv in Hmain
    as (_ & _ & mdl & _ & _ & Hiim & _ & _ & _ & _ & _ & _ & Hc).
  apply engine_steps_inv in Hsteps as [Hs Hc']; [|unfold cache_ok; by rewrite Hc].
  destruct Hs as (_ & Hiim' & _).
  apply related_excludes_self; [|done..].
  rewrite Hiim', Hiim. unfold PyDict.values. rewrite enumerate_snd.
  apply NoDup_unique.
Qed.

(** Item 100 of the small batch. *)
Lemma C3_related_excludes_self_witness :
  (100 ∉ (get_related_items settings w_engine 100).1)
  ∧ (Z.of_nat (length (get_related_items settings w_engine 100).1)
     ≤ REC_RELATED_COUNT settings).
Proof.
  apply (C3_related_excludes_self settings day_pow Qcsum insertion_argsort
           (fit_with (λ _, w_factors)) w_table w_now w_now w_loader w_agg
           w_matrix w_engine w_engine 100).
  - apply w_run_eq.
  - constructor.
  - vm_compute. discriminate.
Defined.

(** ** C4: history *)

(** C4.  For every user of the aggregated data, the history index holds the
    items of the user's (item, score) pairs ordered by score descending with
    the item id ascending among equal scores, and [get_history_rec] returns
    the first [REC_HISTORY_COUNT] of them. *)
Theorem C4_history_order (cfg : Settings) (fpow : Qc → Qc → Qc) (fsum : list Qc → Qc) (S : Sorter)
    (um : dict Z nat) (iim : dict nat Z) (now : Z) (df : list Event) (u : Z) :
  let agg := aggregate cfg fpow fsum now df in
  let engine := RecommendationEngine_init fsum S um iim agg in
  u ∈ user_id <$> agg →
  0 ≤ REC_HISTORY_COUNT cfg →
  ∃ L : list ScoreEntry,
    L ≡ₚ filter (λ e, user_id e = u) agg
    ∧ StronglySorted history_order L
    ∧ PyDict.get (user_history_index engine) u = Some (object_id <$> L)
    ∧ get_history_rec cfg engine u
      = take (Z.to_nat (REC_HISTORY_COUNT cfg)) (object_id <$> L).
Proof.
  intros agg engine Hu Hn.
  exists (filter (λ e, user_id e = u) (stable_sort history_leb agg)).
  assert (PyDict.get (user_history_index engine) u
          = Some (object_id <$> filter (λ e, user_id e = u)
                                  (stable_sort history_leb agg))) as Hget.
  { simpl. apply groupby_list_get. by rewrite stable_sort_perm. }
  split_and!.
  - by rewrite stable_sort_perm.
  - apply history_sorted, aggregate_sorted.
  - done.
  - unfold get_history_rec. rewrite Hget. simpl. by apply py_slice_to_nonneg.
Qed.

(** User 2 of the small batch: items 200 and 300 with equal scores. *)
Lemma C4_history_order_witness :
  ∃ L : list ScoreEntry,
    L ≡ₚ filter (λ e, user_id e = 2)
           (aggregate settings day_pow Qcsum w_now (read_sql settings w_table w_now))
    ∧ StronglySorted history_order L
    ∧ PyDict.get
        (user_history_index
           (RecommendationEngine_init Qcsum insertion_argsort [] []
              (aggregate settings day_pow Qcsum w_now (read_sql settings w_table w_now))))
        2 = Some (object_id <$> L)
    ∧ get_history_rec settings
        (RecommendationEngine_init Qcsum insertion_argsort [] []
           (aggregate settings day_pow Qcsum w_now (read_sql settings w_table w_now)))
        2
      = take (Z.to_nat (REC_HISTORY_COUNT settings)) (object_id <$> L).
Proof.
  apply (C4_history_order settings day_pow Qcsum insertion_argsort [] [] w_now
           (read_sql settings w_table w_now) 2).
  - vm_compute. do 1 constructor. constructor.
  - vm_compute. discriminate.
Defined.

(** ** C5: popularity *)

(** C5 (amended).  The popularity ranking lists every item of the aggregated
    data once, next to the sum of its scores over all users, by that total
    descending; among equal totals the item id is ascending whenever the sort
    keeps equal values in input order.  The ranking is fixed when the engine
    is constructed from the aggregated data: the maps the engine is given,
    the training and the lookups do not change it, and [get_popular_items]
    returns its first [limit] elements, before and after them. *)
Theorem C5_popularity_ranking (cfg : Settings) (fsum : list Qc → Qc) (S : Sorter)
    (fit : csr_matrix → option ALSModel)
    (um : dict Z nat) (iim : dict nat Z) (df : list ScoreEntry) (limit : Z) :
  let engine := RecommendationEngine_init fsum S um iim df in
  argsort_ok S →
  0 ≤ limit →
  ∃ ranked : list (Z * Qc),
    popular_items engine = ranked.*1
    ∧ ranked ≡ₚ item_totals fsum df
    ∧ (∀ i t, (i, t) ∈ ranked ↔
         i ∈ object_id <$> df
         ∧ t = fsum (score <$> filter (λ e, object_id e = i) df))
    ∧ StronglySorted (λ a b, (b.2 ≤ a.2)%Qc) ranked
    ∧ (stable S → StronglySorted popular_order ranked)
    ∧ get_popular_items engine limit = take (Z.to_nat limit) ranked.*1
    ∧ (∀ um' iim' m trained engine',
         train fit (RecommendationEngine_init fsum S um' iim' df) m = Some trained →
         engine_steps cfg trained engine' →
         popular_items engine' = ranked.*1
         ∧ get_popular_items engine' limit = take (Z.to_nat limit) ranked.*1).
Proof.
  intros engine HS Hlimit. exists (sort_values S (item_totals fsum df) false).
  split_and!.
  - done.
  - by apply sort_values_perm.
  - intros i t. by rewrite sort_values_perm, item_totals_elem.
  - by apply sort_values_sorted.
  - intros Hst.
    pose proof (sort_values_stable S HS _ _ Hst (item_totals_sorted fsum df)) as Hs.
    eapply StronglySorted_impl; [|done].
    intros a b [Hle Heq]. unfold popular_order.
    apply Qcle_lt_or_eq in Hle as [?|Hab]; [by left|].
    right. split; [done|]. by apply Heq.
  - unfold get_popular_items. by apply py_slice_to_nonneg.
  - intros um' iim' m trained engine' Htrain Hsteps.
    unfold train in Htrain. destruct (fit m) as [fitted|]; [|done].
    injection Htrain as <-.
    apply engine_steps_inv in Hsteps as [(_ & _ & _ & _ & Hpop & _) _]; [|done].
    assert (popular_items engine' = (sort_values S (item_totals fsum df) false).*1)
      as Heq by (by rewrite Hpop).
    split; [done|].
    unfold get_popular_items. rewrite Heq. by apply py_slice_to_nonneg.
Qed.

(** The small batch with a stable sorter and the limit 10. *)
Lemma C5_popularity_ranking_witness :
  let engine := RecommendationEngine_init Qcsum insertion_argsort [] [] w_agg in
  ∃ ranked : list (Z * Qc),
    popular_items engine = ranked.*1
    ∧ ranked ≡ₚ item_totals Qcsum w_agg
    ∧ (∀ i t, (i, t) ∈ ranked ↔
         i ∈ object_id <$> w_agg
         ∧ t = Qcsum (score <$> filter (λ e, object_id e = i) w_agg))
    ∧ StronglySorted (λ a b, (b.2 ≤ a.2)%Qc) ranked
    ∧ (stable insertion_argsort → StronglySorted popular_order ranked)
    ∧ get_popular_items engine 10 = take (Z.to_nat 10) ranked.*1
    ∧ (∀ um' iim' m trained engine',
         train (fit_with (λ _, w_factors))
           (RecommendationEngine_init Qcsum insertion_argsort um' iim' w_agg) m
         = Some trained →
         engine_steps settings trained engine' →
         popular_items engine' = ranked.*1
         ∧ get_popular_items engine' 10 = take (Z.to_nat 10) ranked.*1).
Proof.
  apply (C5_popularity_ranking settings Qcsum insertion_argsort
           (fit_with (λ _, w_factors)) [] [] w_agg 10).
  - apply insertion_argsort_ok.
  - lia.
Defined.

(** C5, as stated, fails: the code sorts the totals with the default kind
    and breaks no tie.  Eighteen items, each seen once today by one user,
    have the total 1; numpy's [argsort] partitions the eighteen equal values
    once, which exchanges them, and the ranking that results is 100, 101,
    116, 115, ..., 102, 117.  No ordering of the totals by total descending
    and item id ascending yields it. *)
Lemma C5_tie_break_counterexample :
  let engine := RecommendationEngine_init float_sum npy_argsort [] [] tied_agg in
  (λ e, (user_id e, object_id e, this (score e))) <$> tied_agg
  = (λ i, (1, 100 + Z.of_nat i, 1%Q)) <$> seq 0 18
  ∧ Forall (λ p, p.2 = 1%Qc) (item_totals float_sum tied_agg)
  ∧ npy_argsort (replicate 18 1%Qc)
    = [0; 15; 14; 13; 12; 11; 10; 9; 8; 7; 6; 5; 4; 3; 2; 1; 16; 17]%nat
  ∧ popular_items engine
    = [100; 101; 116; 115; 114; 113; 112; 111; 110; 109; 108; 107; 106; 105;
       104; 103; 102; 117]
  ∧ get_popular_items engine 4 = [100; 101; 116; 115]
  ∧ ¬ ∃ ranked : list (Z * Qc),
        popular_items engine = ranked.*1
        ∧ ranked ≡ₚ item_totals float_sum tied_agg
        ∧ StronglySorted popular_order ranked.
Proof.
  intros engine.
  assert (Forall (λ p : Z * Qc, p.2 = 1%Qc) (item_totals float_sum tied_agg)) as Hties.
  { apply Forall_forall. intros p Hp. apply Qc_is_canon. revert p Hp.
    apply Forall_forall. vm_compute. repeat constructor. }
  assert (popular_items engine
          = [100; 101; 116; 115; 114; 113; 112; 111; 110; 109; 108; 107; 106; 105;
             104; 103; 102; 117]) as Hrank.
  { vm_compute. reflexivity. }
  split_and!; [by vm_compute|done|by vm_compute|done|by vm_compute|].
  intros (ranked & Hr & Hp & Hs). rewrite Hrank in Hr.
  destruct ranked as [|a [|b [|c [|d ranked]]]]; [discriminate..|].
  injection Hr as _ _ Hc Hd _.
  apply StronglySorted_inv in Hs as [Hs _]. apply StronglySorted_inv in Hs as [Hs _].
  apply StronglySorted_inv in Hs as [_ Hcd]. apply Forall_cons in Hcd as [Hcd _].
  rewrite Forall_forall in Hties.
  assert (c.2 = 1%Qc) as Hc2 by (apply Hties; rewrite <-Hp; do 2 right; left).
  assert (d.2 = 1%Qc) as Hd2 by (apply Hties; rewrite <-Hp; do 3 right; left).
  destruct Hcd as [Hlt|[_ Hlt]].
  - rewrite Hc2, Hd2 in Hlt. by apply (irreflexivity Qclt 1%Qc).
  - rewrite <-Hc, <-Hd in Hlt. vm_compute in Hlt. discriminate.
Qed.

(** ** C6: unknown users and items *)

(** C6 (amended).  At every state of the engine of a batch run, for a user
    absent from the aggregated data the history and the discovery operation
    return the empty list, and for an item absent from it the related-items
    operation returns the empty list; none raises.  The two user operations
    return a list and nothing else; the related-items operation leaves the
    engine as it is except for the cached reverse item-id map, which the
    first call builds, and once that map is cached it leaves the engine as it
    is. *)
Theorem C6_unknown_entities (cfg : Settings) (fpow : Qc → Qc → Qc) (fsum : list Qc → Qc) (S : Sorter)
    (fit : csr_matrix → option ALSModel) (table : list HistoryRow)
    (db_now now : Z) (loader : DataLoader) (agg : list ScoreEntry)
    (m : csr_matrix) (engine engine' : RecommendationEngine) (uid iid : Z) :
  main_engine cfg fpow fsum S fit (Some table) db_now now
  = Some (loader, agg, m, engine) →
  engine_steps cfg engine engine' →
  uid ∉ user_id <$> agg →
  iid ∉ object_id <$> agg →
  get_history_rec cfg engine' uid = []
  ∧ get_discovery_rec cfg engine' uid = []
  ∧ get_related_items cfg engine' iid
    = ([], set_item_id_map_cache engine' (item_id_map engine'))
  ∧ same_but_cache engine' (get_related_items cfg engine' iid).2
  ∧ (_item_id_map_cache engine' ≠ None →
     get_related_items cfg engine' iid = ([], engine')).
Proof.
  intros Hmain Hsteps Hu Hi.
  apply main_engine_inv in Hmain
    as (_ & _ & mdl & _ & Hum & Hiim & _ & Hidx & _ & _ & Htr & _ & Hc).
  apply engine_steps_inv in Hsteps as [Hs Hc']; [|unfold cache_ok; by rewrite Hc].
  destruct Hs as (Hum' & Hiim' & _ & Hidx' & _ & _ & Htr' & _).
  assert (get_related_items cfg engine' iid
          = ([], set_item_id_map_cache engine' (item_id_map engine'))) as Hrel.
  { rewrite (surjective_pairing (get_related_items cfg engine' iid)).
    rewrite related_state, Htr', Htr, related_cache_ok by done.
    f_equal. apply related_unknown. rewrite related_cache_ok by done.
    unfold item_id_map. rewrite Hiim', Hiim.
    apply dict_get_None. unfold PyDict.items.
    fold (inverse (unique (object_id <$> agg))).
    rewrite of_items_inverse, inverse_fst by apply NoDup_unique.
    by rewrite elem_of_unique. }
  split_and!.
  - unfold get_history_rec. rewrite Hidx', Hidx.
    rewrite groupby_list_get_None; [apply py_slice_to_nil|].
    by rewrite stable_sort_perm.
  - unfold get_discovery_rec.
    assert (PyDict.contains (user_map engine') uid = false) as ->;
      [|by rewrite orb_true_r].
    apply not_true_is_false. rewrite dict_contains_true, Hum', Hum, inverse_fst.
    by rewrite elem_of_unique.
  - done.
  - rewrite Hrel. apply set_cache_same.
  - intros Hsome. rewrite (surjective_pairing (get_related_items cfg engine' iid)).
    rewrite (related_state_cached cfg engine' iid Hsome). by rewrite Hrel.
Qed.

(** User 99 and item 999 are not in the small batch. *)
Lemma C6_unknown_entities_witness :
  get_history_rec settings w_engine 99 = []
  ∧ get_discovery_rec settings w_engine 99 = []
  ∧ get_related_items settings w_engine 999
    = ([], set_item_id_map_cache w_engine (item_id_map w_engine))
  ∧ same_but_cache w_engine (get_related_items settings w_engine 999).2
  ∧ (_item_id_map_cache w_engine ≠ None →
     get_related_items settings w_engine 999 = ([], w_engine)).
Proof.
  apply (C6_unknown_entities settings day_pow Qcsum insertion_argsort
           (fit_with (λ _, w_factors)) w_table w_now w_now w_loader w_agg
           w_matrix w_engine w_engine 99 999).
  - apply w_run_eq.
  - constructor.
  - apply (bool_decide_unpack _). vm_compute. exact I.
  - apply (bool_decide_unpack _). vm_compute. exact I.
Defined.

(** C6, as stated, fails: the first related-items call for an unknown item
    returns the empty list and changes the engine, which now holds the
    reverse item-id map. *)
Lemma C6_state_change_counterexample :
  main_engine settings day_pow Qcsum insertion_argsort (fit_with (λ _, w_factors))
    (Some w_table) w_now w_now
  = Some (w_loader, w_agg, w_matrix, w_engine)
  ∧ (999 ∉ object_id <$> w_agg)
  ∧ (get_related_items settings w_engine 999).1 = []
  ∧ _item_id_map_cache w_engine = None
  ∧ _item_id_map_cache (get_related_items settings w_engine 999).2
    = Some [(100, 0%nat); (200, 1%nat); (300, 2%nat); (400, 3%nat)]
  ∧ (get_related_items settings w_engine 999).2 ≠ w_engine.
Proof.
  split_and!.
  - apply w_run_eq.
  - apply (bool_decide_unpack _). vm_compute. exact I.
  - vm_compute. reflexivity.
  - vm_compute. reflexivity.
  - vm_compute. reflexivity.
  - intros Heq. apply (f_equal _item_id_map_cache) in Heq.
    vm_compute in Heq. discriminate.
Qed.

(** ** C7: no data *)

(** C7.  When no row passes the filter of the query, the load returns the
    empty frame and the 0x0 matrix, and the run exits with status 1 without
    fitting the model and without a command to the cache. *)
Theorem C7_empty_dataset_aborts (cfg : Settings) (fpow : Qc → Qc → Qc) (fsum : list Qc → Qc)
    (S : Sorter) (fit : csr_matrix → option ALSModel) (self : DataLoader)
    (table : list HistoryRow) (db_now now : Z) (server : option keyspace) :
  read_sql cfg table db_now = [] →
  load_and_process cfg fpow fsum self (Some table) db_now now
  = Some (self, ([], csr_zeros (0, 0)%nat))
  ∧ shape (csr_zeros (0, 0)%nat) = (0, 0)%nat
  ∧ nnz (csr_zeros (0, 0)%nat) = 0%nat
  ∧ main cfg fpow fsum S fit (Some table) db_now now server = ([SysExit 1], server).
Proof.
  intros He. split_and!; [by apply load_and_process_empty|done..|].
  unfold main. by rewrite load_and_process_empty.
Qed.

(** A table with a deleted row and a row outside the window. *)
Lemma C7_empty_dataset_aborts_witness :
  load_and_process settings day_pow Qcsum DataLoader_init (Some w_table_stale) w_now w_now
  = Some (DataLoader_init, ([], csr_zeros (0, 0)%nat))
  ∧ shape (csr_zeros (0, 0)%nat) = (0, 0)%nat
  ∧ nnz (csr_zeros (0, 0)%nat) = 0%nat
  ∧ main settings day_pow Qcsum insertion_argsort (fit_with (λ _, w_factors))
      (Some w_table_stale) w_now w_now (Some ∅)
    = ([SysExit 1], Some ∅).
Proof.
  apply (C7_empty_dataset_aborts settings day_pow Qcsum insertion_argsort
           (fit_with (λ _, w_factors)) DataLoader_init w_table_stale w_now w_now
           (Some ∅)).
  vm_compute. reflexivity.
Defined.

(** ** C8: the publisher *)

(** The commands of the pipeline name the keys of the two dicts only. *)
Lemma pipeline_cmd_keys (cfg : Settings) (user_recs : dict Z UserRecs)
    (item_recs : dict Z (list Z)) (c : RedisCmd) :
  c ∈ save_results_pipeline cfg user_recs item_recs →
  (∃ uid, uid ∈ PyDict.keys user_recs
          ∧ (cmd_key c = key_hist cfg uid ∨ cmd_key c = key_disc cfg uid))
  ∨ (∃ iid, iid ∈ PyDict.keys item_recs ∧ cmd_key c = key_related cfg iid).
Proof.
  rewrite save_results_pipeline_cmds, elem_of_app, !list_elem_of_bind.
  intros [(entry & Hc%user_cmds_key & Hin)|(entry & Hc%item_cmds_key & Hin)].
  - left. exists entry.1. split; [by apply list_elem_of_fmap_2|done].
  - right. exists entry.1. split; [by apply list_elem_of_fmap_2|done].
Qed.

(** What the executed pipeline leaves at the keys of a user and of an
    item. *)
Lemma execute_pipeline_user (cfg : Settings) (user_recs : dict Z UserRecs)
    (item_recs : dict Z (list Z)) (db : keyspace) (uid : Z) (recs : UserRecs) :
  0 < REDIS_EXPIRE_SECONDS cfg →
  NoDup (PyDict.keys user_recs) →
  (uid, recs) ∈ user_recs →
  let db' := execute db (save_results_pipeline cfg user_recs item_recs) in
  db' !! key_hist cfg uid = published cfg (history recs)
  ∧ db' !! key_disc cfg uid = published cfg (discovery recs).
Proof.
  intros Hs Hu (l1 & l2 & ->)%list_elem_of_split. simpl.
  rewrite save_results_pipeline_cmds, bind_app, bind_cons.
  change (user_cmds cfg (uid, recs))
    with (key_cmds cfg (key_hist cfg uid) (history recs)
          ++ key_cmds cfg (key_disc cfg uid) (discovery recs)).
  split.
  - rewrite <-!app_assoc. apply execute_segment; [by intros; apply execute_key_cmds|].
    intros c. rewrite !elem_of_app, !list_elem_of_bind.
    intros [->%key_cmds_key|[(entry & Hc & Hin)|(entry & ->%item_cmds_key & _)]].
    + intros ?. by eapply key_hist_disc.
    + assert (entry.1 ≠ uid) as Hne by by eapply split_NoDup_keys.
      apply user_cmds_key in Hc as [-> | ->].
      * by intros ?%key_hist_inj.
      * intros ?. by eapply key_hist_disc.
    + intros ?. by eapply key_hist_related.
  - rewrite <-!app_assoc.
    rewrite (app_assoc (l1 ≫= user_cmds cfg) (key_cmds cfg (key_hist cfg uid) _)).
    apply execute_segment; [by intros; apply execute_key_cmds|].
    intros c. rewrite !elem_of_app, !list_elem_of_bind.
    intros [(entry & Hc & Hin)|(entry & ->%item_cmds_key & _)].
    + assert (entry.1 ≠ uid) as Hne by by eapply split_NoDup_keys.
      apply user_cmds_key in Hc as [-> | ->].
      * by apply key_hist_disc.
      * by intros ?%key_disc_inj.
    + intros ?. by eapply key_disc_related.
Qed.

Lemma execute_pipeline_item (cfg : Settings) (user_recs : dict Z UserRecs)
    (item_recs : dict Z (list Z)) (db : keyspace) (iid : Z) (related_ids : list Z) :
  0 < REDIS_EXPIRE_SECONDS cfg →
  NoDup (PyDict.keys item_recs) →
  (iid, related_ids) ∈ item_recs →
  execute db (save_results_pipeline cfg user_recs item_recs) !! key_related cfg iid
  = published cfg related_ids.
Proof.
  intros Hs Hi (l1 & l2 & ->)%list_elem_of_split.
  rewrite save_results_pipeline_cmds, bind_app, bind_cons.
  change (item_cmds cfg (iid, related_ids))
    with (key_cmds cfg (key_related cfg iid) related_ids).
  rewrite app_assoc. apply execute_segment; [by intros; apply execute_key_cmds|].
  intros c. rewrite !list_elem_of_bind. intros (entry & ->%item_cmds_key & Hin).
  assert (entry.1 ≠ iid) as Hne by by eapply split_NoDup_keys.
  by intros ?%key_related_inj.
Qed.

(** C8.  On a server that takes the pipeline, [save_results_to_redis]
    queues for every key it processes a delete, followed by the write of the
    list and the expiration exactly when the list is not empty, and runs
    these commands: afterwards a key with a non-empty list holds that list,
    in order, with the time to live [REDIS_EXPIRE_SECONDS], a key with an
    empty list is absent whatever it held before, and every other key is as
    it was.  Without a server nothing is written. *)
Theorem C8_publish_per_key (cfg : Settings) (user_recs : dict Z UserRecs)
    (item_recs : dict Z (list Z)) (db : keyspace) :
  0 < REDIS_EXPIRE_SECONDS cfg →
  NoDup (PyDict.keys user_recs) →
  NoDup (PyDict.keys item_recs) →
  save_results_pipeline cfg user_recs item_recs
  = (user_recs ≫= λ entry,
       key_cmds cfg (key_hist cfg entry.1) (history entry.2)
       ++ key_cmds cfg (key_disc cfg entry.1) (discovery entry.2))
    ++ (item_recs ≫= λ entry, key_cmds cfg (key_related cfg entry.1) entry.2)
  ∧ save_results_to_redis cfg user_recs item_recs None = None
  ∧ ∃ db' : keyspace,
      save_results_to_redis cfg user_recs item_recs (Some db) = Some db'
      ∧ db' = execute db (save_results_pipeline cfg user_recs item_recs)
      ∧ (∀ uid recs, (uid, recs) ∈ user_recs →
           db' !! key_hist cfg uid = published cfg (history recs)
           ∧ db' !! key_disc cfg uid = published cfg (discovery recs))
      ∧ (∀ iid related_ids, (iid, related_ids) ∈ item_recs →
           db' !! key_related cfg iid = published cfg related_ids)
      ∧ (∀ key,
           (∀ uid, uid ∈ PyDict.keys user_recs →
              key ≠ key_hist cfg uid ∧ key ≠ key_disc cfg uid) →
           (∀ iid, iid ∈ PyDict.keys item_recs → key ≠ key_related cfg iid) →
           db' !! key = db !! key).
Proof.
  intros Hs Hu Hi. split; [apply save_results_pipeline_cmds|]. split; [done|].
  eexists. split; [done|]. split; [done|]. split_and!.
  - intros uid recs Hin. by apply execute_pipeline_user.
  - intros iid related_ids Hin. by apply execute_pipeline_item.
  - intros key Hku Hki. apply execute_other.
    intros c [(uid & Hin & Hc)|(iid & Hin & Hc)]%pipeline_cmd_keys Hkey.
    + destruct (Hku uid Hin) as [? ?]. destruct Hc; congruence.
    + specialize (Hki iid Hin). congruence.
Qed.

(** Two users and two items, with an empty discovery and an empty related
    list, published over a cache that holds a stale list. *)
Lemma C8_publish_per_key_witness :
  let db : keyspace :=
    {[ "rec:sys:user:2:discovery" := {| elems := [7]; ttl := None |} ]} in
  save_results_pipeline settings w_user_recs w_item_recs
  = (w_user_recs ≫= λ entry,
       key_cmds settings (key_hist settings entry.1) (history entry.2)
       ++ key_cmds settings (key_disc settings entry.1) (discovery entry.2))
    ++ (w_item_recs ≫= λ entry,
          key_cmds settings (key_related settings entry.1) entry.2)
  ∧ save_results_to_redis settings w_user_recs w_item_recs None = None
  ∧ ∃ db' : keyspace,
      save_results_to_redis settings w_user_recs w_item_recs (Some db) = Some db'
      ∧ db' = execute db (save_results_pipeline settings w_user_recs w_item_recs)
      ∧ (∀ uid recs, (uid, recs) ∈ w_user_recs →
           db' !! key_hist settings uid = published settings (history recs)
           ∧ db' !! key_disc settings uid = published settings (discovery recs))
      ∧ (∀ iid related_ids, (iid, related_ids) ∈ w_item_recs →
           db' !! key_related settings iid = published settings related_ids)
      ∧ (∀ key,
           (∀ uid, uid ∈ PyDict.keys w_user_recs →
              key ≠ key_hist settings uid ∧ key ≠ key_disc settings uid) →
           (∀ iid, iid ∈ PyDict.keys w_item_recs → key ≠ key_related settings iid) →
           db' !! key = db !! key).
Proof.
  apply (C8_publish_per_key settings w_user_recs w_item_recs).
  - reflexivity.
  - apply (bool_decide_unpack _). vm_compute. exact I.
  - apply (bool_decide_unpack _). vm_compute. exact I.
Defined.

(** ** C9: aggregation and the matrix *)

Section aggregation_rows.
Variable cfg : Settings.
Variable fpow : Qc → Qc → Qc.
Variable fsum : list Qc → Qc.

(** The pairs of the query result, read off the table. *)
Lemma read_sql_pairs (table : list HistoryRow) (db_now : Z) :
  ev_pair <$> read_sql cfg table db_now
  = (λ r, (hr_user_id r, hr_object_id r))
    <$> filter (λ r, hr_deleted_at r = None
                     ∧ db_now - TIME_DECAY_WINDOW cfg * 86400 ≤ hr_visited_at r)
               table.
Proof. unfold read_sql. by rewrite <-list_fmap_compose. Qed.

(** The score of a pair, read off the table. *)
Lemma pair_score_rows (table : list HistoryRow) (db_now now : Z) (k : Z * Z) :
  pair_score cfg fpow fsum now (read_sql cfg table db_now) k
  = fsum ((λ r, fpow (TIME_DECAY_RATE cfg)
                  (binary64 (Q2Qc ((now - hr_visited_at r) # 86400))))
          <$> filter (λ r, (hr_user_id r, hr_object_id r) = k)
                (filter (λ r, hr_deleted_at r = None
                              ∧ db_now - TIME_DECAY_WINDOW cfg * 86400
                                ≤ hr_visited_at r)
                        table)).
Proof.
  unfold pair_score, read_sql. by rewrite filter_fmap_comm, <-list_fmap_compose.
Qed.

(** The index maps, the pairs, the shape and the stored positions do not
    depend on the order of the rows. *)
Lemma loaded_pairs_perm (now : Z) (df df' : list Event) :
  df ≡ₚ df' →
  (loaded cfg fpow fsum now df').1 = (loaded cfg fpow fsum now df).1
  ∧ pair_of <$> (loaded cfg fpow fsum now df').2.1
    = pair_of <$> (loaded cfg fpow fsum now df).2.1
  ∧ shape (loaded cfg fpow fsum now df').2.2 = shape (loaded cfg fpow fsum now df).2.2
  ∧ (entries (loaded cfg fpow fsum now df').2.2).*1
    = (entries (loaded cfg fpow fsum now df).2.2).*1.
Proof.
  intros Hp. unfold loaded. simpl.
  pose proof (aggregate_pairs_perm cfg fpow fsum now df df' Hp) as Hpairs.
  set (agg := aggregate cfg fpow fsum now df) in *.
  set (agg' := aggregate cfg fpow fsum now df') in *.
  assert (user_id <$> agg' = user_id <$> agg) as Hu.
  { change (fst ∘ pair_of <$> agg' = fst ∘ pair_of <$> agg).
    by rewrite (list_fmap_compose pair_of fst agg'),
      (list_fmap_compose pair_of fst agg), Hpairs. }
  assert (object_id <$> agg' = object_id <$> agg) as Hi.
  { change (snd ∘ pair_of <$> agg' = snd ∘ pair_of <$> agg).
    by rewrite (list_fmap_compose pair_of snd agg'),
      (list_fmap_compose pair_of snd agg), Hpairs. }
  rewrite Hu, Hi. split_and!; [done..|].
  rewrite !(groupby_sum_keys coord_leb), <-!list_fmap_compose.
  set (users := unique (user_id <$> agg)). set (items := unique (object_id <$> agg)).
  set (pos := λ p : Z * Z, (idx_of users p.1, idx_of items p.2)).
  change (stable_sort coord_leb (unique (pos ∘ pair_of <$> agg'))
          = stable_sort coord_leb (unique (pos ∘ pair_of <$> agg))).
  by rewrite (list_fmap_compose pair_of pos agg'),
    (list_fmap_compose pair_of pos agg), Hpairs.
Qed.
End aggregation_rows.

(** C9 (amended).  The load returns one aggregated row per (user, item) pair
    of the rows that pass the query, and the score of the row is the float
    sum, in the order of the rows, of [TIME_DECAY_RATE ** days_diff] over
    exactly that pair's rows.  The matrix has the shape (number of unique
    users, number of unique items), stores as many entries as there are
    aggregated rows, and holds every row's score at the position of its pair;
    the score is not zero when the weights are positive and a sum of positive
    terms is.  For the same rows in another order the index maps, the pairs,
    the shape and the stored positions are the same; the scores are the same
    when the sum does not depend on the order of its terms. *)
Theorem C9_aggregation_and_matrix (cfg : Settings) (fpow : Qc → Qc → Qc)
    (fsum : list Qc → Qc) (self : DataLoader) (table table' : list HistoryRow)
    (db_now now : Z) :
  table ≡ₚ table' →
  let queried (t : list HistoryRow) :=
    filter (λ r, hr_deleted_at r = None
                 ∧ db_now - TIME_DECAY_WINDOW cfg * 86400 ≤ hr_visited_at r) t in
  let decay (r : HistoryRow) :=
    fpow (TIME_DECAY_RATE cfg) (binary64 (Q2Qc ((now - hr_visited_at r) # 86400))) in
  let total (t : list HistoryRow) (pair : Z * Z) :=
    fsum (decay <$> filter (λ r, (hr_user_id r, hr_object_id r) = pair) (queried t)) in
  ∃ loader agg m agg' m',
    load_and_process cfg fpow fsum self (Some table) db_now now
    = Some (loader, (agg, m))
    ∧ load_and_process cfg fpow fsum self (Some table') db_now now
      = Some (loader, (agg', m'))
    ∧ NoDup ((λ e, (user_id e, object_id e)) <$> agg)
    ∧ (∀ e, e ∈ agg ↔
         (user_id e, object_id e)
           ∈ (λ r, (hr_user_id r, hr_object_id r)) <$> queried table
         ∧ score e = total table (user_id e, object_id e))
    ∧ shape m = (length (unique (user_id <$> agg)),
                 length (unique (object_id <$> agg)))
    ∧ nnz m = length agg
    ∧ (∀ e, e ∈ agg →
         ∃ ui ii,
           PyDict.get (user_id_to_idx loader) (user_id e) = Some ui
           ∧ PyDict.get (item_id_to_idx loader) (object_id e) = Some ii
           ∧ PyDict.get (entries m) (ui, ii) = Some (score e)
           ∧ csr_at m ui ii = score e)
    ∧ ((∀ r, r ∈ queried table → (0 < decay r)%Qc) →
       (∀ l, l ≠ [] → Forall (λ x, (0 < x)%Qc) l → (0 < fsum l)%Qc) →
       ∀ e, e ∈ agg → score e ≠ 0%Qc)
    ∧ (λ e, (user_id e, object_id e)) <$> agg'
      = (λ e, (user_id e, object_id e)) <$> agg
    ∧ (∀ e, e ∈ agg' → score e = total table' (user_id e, object_id e))
    ∧ shape m' = shape m
    ∧ (entries m').*1 = (entries m).*1
    ∧ ((∀ l l', l ≡ₚ l' → fsum l = fsum l') → agg' = agg ∧ m' = m).
Proof.
  intros Hp queried decay total.
  pose proof (read_sql_perm cfg _ _ db_now Hp) as Hdf.
  set (df := read_sql cfg table db_now) in *.
  set (df' := read_sql cfg table' db_now) in *.
  assert (∀ t e, e ∈ aggregate cfg fpow fsum now (read_sql cfg t db_now) ↔
            (user_id e, object_id e)
              ∈ (λ r, (hr_user_id r, hr_object_id r)) <$> queried t
            ∧ score e = total t (user_id e, object_id e)) as Hagg.
  { intros t e. rewrite elem_of_aggregate, read_sql_pairs, pair_score_rows. done. }
  destruct (decide (df = [])) as [He|Hne].
  - assert (df' = []) as He' by (rewrite He in Hdf; by apply Permutation_nil in Hdf).
    exists self, [], (csr_zeros (0, 0)%nat), [], (csr_zeros (0, 0)%nat).
    rewrite !load_and_process_empty by done.
    split_and!; try done.
    + constructor.
    + intros e. rewrite <-Hagg. fold df. by rewrite He.
    + by intros e ?%elem_of_nil.
    + by intros _ _ e ?%elem_of_nil.
    + by intros e ?%elem_of_nil.
  - assert (df' ≠ []) as Hne'.
    { intros He'. rewrite He' in Hdf. by apply Permutation_nil_r in Hdf. }
    destruct (loaded_pairs_perm cfg fpow fsum now df df' Hdf)
      as (Hloader & Hpairs & Hshape & Hkeys).
    set (out := loaded cfg fpow fsum now df) in *.
    set (out' := loaded cfg fpow fsum now df') in *.
    exists out.1, out.2.1, out.2.2, out'.2.1, out'.2.2.
    rewrite !load_and_process_rows by done. fold df df' out out'.
    split_and!; try done.
    + by rewrite <-Hloader.
    + apply (aggregate_NoDup cfg fpow fsum now df).
    + intros e. apply (Hagg table e).
    + apply (loaded_nnz cfg fpow fsum now df).
    + intros e He.
      set (users := unique (user_id <$> out.2.1)).
      set (items := unique (object_id <$> out.2.1)).
      exists (idx_of users (user_id e)), (idx_of items (object_id e)).
      assert (PyDict.get (entries out.2.2) (coords out.2.1 e) = Some (score e))
        as Hentry by by apply loaded_entry.
      split_and!.
      * apply dict_get_idx_of; [apply NoDup_unique|].
        apply elem_of_unique. by apply list_elem_of_fmap_2.
      * apply dict_get_idx_of; [apply NoDup_unique|].
        apply elem_of_unique. by apply list_elem_of_fmap_2.
      * done.
      * unfold csr_at.
        change (default 0%Qc (PyDict.get (entries out.2.2) (coords out.2.1 e))
                = score e).
        by rewrite Hentry.
    + intros Hdecay Hsum e [Hin Hscore]%(Hagg table).
      apply not_symmetry, Qclt_not_eq. rewrite Hscore. apply Hsum.
      * apply list_elem_of_fmap in Hin as (r & Hr & Hin).
        intros Hnil%fmap_nil_inv.
        assert (r ∈ filter (λ r, (hr_user_id r, hr_object_id r)
                                 = (user_id e, object_id e)) (queried table)) as Hr'
          by by apply list_elem_of_filter.
        rewrite Hnil in Hr'. by apply elem_of_nil in Hr'.
      * apply Forall_fmap, Forall_forall. intros r [_ Hr]%list_elem_of_filter.
        by apply Hdecay.
    + intros e He. by apply (Hagg table' e).
    + intros Hsum.
      assert (out' = out) as ->; [|done].
      unfold out, out', loaded.
      by rewrite (aggregate_perm cfg fpow fsum now df' df Hsum).
Qed.

(** The small batch and the same rows with the first two exchanged, with
    the floats of the program. *)
Lemma C9_aggregation_and_matrix_witness :
  let queried (t : list HistoryRow) :=
    filter (λ r, hr_deleted_at r = None
                 ∧ w_now - TIME_DECAY_WINDOW settings * 86400 ≤ hr_visited_at r) t in
  let decay (r : HistoryRow) :=
    float_pow (TIME_DECAY_RATE settings)
      (binary64 (Q2Qc ((w_now - hr_visited_at r) # 86400))) in
  let total (t : list HistoryRow) (pair : Z * Z) :=
    float_sum
      (decay <$> filter (λ r, (hr_user_id r, hr_object_id r) = pair) (queried t)) in
  ∃ loader agg m agg' m',
    load_and_process settings float_pow float_sum DataLoader_init (Some w_table)
      w_now w_now
    = Some (loader, (agg, m))
    ∧ load_and_process settings float_pow float_sum DataLoader_init
        (Some w_table_swapped) w_now w_now
      = Some (loader, (agg', m'))
    ∧ NoDup ((λ e, (user_id e, object_id e)) <$> agg)
    ∧ (∀ e, e ∈ agg ↔
         (user_id e, object_id e)
           ∈ (λ r, (hr_user_id r, hr_object_id r)) <$> queried w_table
         ∧ score e = total w_table (user_id e, object_id e))
    ∧ shape m = (length (unique (user_id <$> agg)),
                 length (unique (object_id <$> agg)))
    ∧ nnz m = length agg
    ∧ (∀ e, e ∈ agg →
         ∃ ui ii,
           PyDict.get (user_id_to_idx loader) (user_id e) = Some ui
           ∧ PyDict.get (item_id_to_idx loader) (object_id e) = Some ii
           ∧ PyDict.get (entries m) (ui, ii) = Some (score e)
           ∧ csr_at m ui ii = score e)
    ∧ ((∀ r, r ∈ queried w_table → (0 < decay r)%Qc) →
       (∀ l, l ≠ [] → Forall (λ x, (0 < x)%Qc) l → (0 < float_sum l)%Qc) →
       ∀ e, e ∈ agg → score e ≠ 0%Qc)
    ∧ (λ e, (user_id e, object_id e)) <$> agg'
      = (λ e, (user_id e, object_id e)) <$> agg
    ∧ (∀ e, e ∈ agg' → score e = total w_table_swapped (user_id e, object_id e))
    ∧ shape m' = shape m
    ∧ (entries m').*1 = (entries m).*1
    ∧ ((∀ l l', l ≡ₚ l' → float_sum l = float_sum l') → agg' = agg ∧ m' = m).
Proof.
  apply (C9_aggregation_and_matrix settings float_pow float_sum DataLoader_init
           w_table w_table_swapped w_now w_now).
  apply perm_swap.
Defined.

(** C9, as stated, fails: the sum of floats depends on the order of its
    terms.  One user saw one item today, one day ago and four days ago; the
    weights are 1, 0.95 and the float of 0.95 ** 4.  With the rows in this
    order the score is 0x1.61db573eab367p+1, with the oldest row first it is
    0x1.61db573eab368p+1, under the compensated sum of pandas and under the
    plain sum alike. *)
Lemma C9_row_order_counterexample :
  let load fsum table :=
    load_and_process settings float_pow fsum DataLoader_init (Some table)
      w_now w_now in
  let frame (agg : list ScoreEntry) :=
    (λ e, (user_id e, object_id e, this (score e))) <$> agg in
  order_table ≡ₚ order_table_moved
  ∧ (λ ev, this (weight settings float_pow w_now ev))
    <$> read_sql settings order_table w_now
    = [1%Q; 4278419646001971 # 4503599627370496;
       7336420087981879 # 9007199254740992]
  ∧ (∃ loader agg m agg' m',
       load float_sum order_table = Some (loader, (agg, m))
       ∧ load float_sum order_table_moved = Some (loader, (agg', m'))
       ∧ frame agg = [(1, 100, 6225114658681703 # 2251799813685248)]
       ∧ frame agg' = [(1, 100, 778139332335213 # 281474976710656)]
       ∧ agg ≠ agg'
       ∧ csr_at m 0 0 ≠ csr_at m' 0 0)
  ∧ (∃ loader agg m agg' m',
       load plain_sum order_table = Some (loader, (agg, m))
       ∧ load plain_sum order_table_moved = Some (loader, (agg', m'))
       ∧ frame agg = [(1, 100, 6225114658681703 # 2251799813685248)]
       ∧ frame agg' = [(1, 100, 778139332335213 # 281474976710656)]
       ∧ agg ≠ agg'
       ∧ csr_at m 0 0 ≠ csr_at m' 0 0).
Proof.
  cbv zeta. split_and!.
  - unfold order_table, order_table_moved.
    etrans; [apply perm_skip, perm_swap|apply perm_swap].
  - vm_compute. reflexivity.
  - eexists _, _, _, _, _.
    split; [vm_compute; reflexivity|]. split; [vm_compute; reflexivity|].
    split; [vm_compute; reflexivity|]. split; [vm_compute; reflexivity|]. split.
    + intros Heq%(f_equal (fmap (λ e, this (score e)))).
      vm_compute in Heq. discriminate.
    + intros Heq%(f_equal this). vm_compute in Heq. discriminate.
  - eexists _, _, _, _, _.
    split; [vm_compute; reflexivity|]. split; [vm_compute; reflexivity|].
    split; [vm_compute; reflexivity|]. split; [vm_compute; reflexivity|]. split.
    + intros Heq%(f_equal (fmap (λ e, this (score e)))).
      vm_compute in Heq. discriminate.
    + intros Heq%(f_equal this). vm_compute in Heq. discriminate.
Qed.

(** ** C10: the lists stay within the batch *)

(** C10.  At every state of the engine of a batch run, the history, the
    discovery, the related and the popular list hold no item id twice, and
    every id in them is an item id of the aggregated data and a value of the
    loader's index-to-id item map. *)
Theorem C10_lists_in_batch (cfg : Settings) (fpow : Qc → Qc → Qc) (fsum : list Qc → Qc) (S : Sorter)
    (als_fit : csr_matrix → Factors) (table : list HistoryRow) (db_now now : Z)
    (loader : DataLoader) (agg : list ScoreEntry) (m : csr_matrix)
    (engine engine' : RecommendationEngine) (uid iid limit : Z) :
  argsort_ok S →
  main_engine cfg fpow fsum S (fit_with als_fit) (Some table) db_now now
  = Some (loader, agg, m, engine) →
  engine_steps cfg engine engine' →
  in_batch loader agg (get_history_rec cfg engine' uid)
  ∧ in_batch loader agg (get_discovery_rec cfg engine' uid)
  ∧ in_batch loader agg (get_related_items cfg engine' iid).1
  ∧ in_batch loader agg (get_popular_items engine' limit).
Proof.
  intros HS Hmain Hsteps.
  apply main_engine_inv in Hmain
    as (_ & Hload & mdl & Hfit & Hum & Hiim & _ & Hidx & Hpop & Hmdl & Htr & _ & Hc).
  injection Hfit as <-.
  apply engine_steps_inv in Hsteps as [Hs Hc']; [|unfold cache_ok; by rewrite Hc].
  destruct Hs as (Hum' & Hiim' & _ & Hidx' & Hpop' & Hmdl' & Htr' & _).
  injection Hload as -> -> ->. simpl.
  set (agg := aggregate cfg fpow fsum now (read_sql cfg table db_now)) in *.
  set (items := unique (object_id <$> agg)).
  assert (NoDup items) as Hitems by apply NoDup_unique.
  assert (NoDup (pair_of <$> agg)) as Hpairs by apply aggregate_NoDup.
  assert (in_batch_nil : ∀ l : list Z, l = [] →
            NoDup l ∧ ∀ x, x ∈ l → x ∈ object_id <$> agg
                                   ∧ x ∈ PyDict.values (enumerate items)).
  { intros l ->. split; [constructor|]. by intros x ?%elem_of_nil. }
  unfold in_batch. simpl. fold items. split; [|split; [|split]].
  - unfold get_history_rec. rewrite Hidx', Hidx.
    destruct (decide (uid ∈ user_id <$> agg)) as [Hu|Hu].
    + rewrite groupby_list_get by by rewrite stable_sort_perm. simpl. split.
      * apply py_slice_to_NoDup, user_items_NoDup.
        by rewrite stable_sort_perm.
      * intros x (e & -> & [_ He]%list_elem_of_filter)%py_slice_to_elem%list_elem_of_fmap.
        rewrite stable_sort_perm in He.
        apply (batch_items_values agg). apply elem_of_unique.
        by apply list_elem_of_fmap_2.
    + rewrite groupby_list_get_None by by rewrite stable_sort_perm.
      apply in_batch_nil, py_slice_to_nil.
  - destruct (discovery_cases cfg engine' uid)
      as [Hnil|(ui & matrix & row & m' & ids & _ & _ & _ & Hm' & Hrec & HmapM)].
    { by apply in_batch_nil. }
    rewrite Hmdl', Hmdl in Hm'. injection Hm' as <-.
    apply factor_recommend_spec in Hrec as [Hnd _].
    rewrite Hiim', Hiim in HmapM.
    apply mapM_enumerate_spec in HmapM as [Hnd' Hf]; [|done..].
    split; [done|]. intros x [k Hk]%list_elem_of_lookup_1.
    destruct (Forall2_lookup_r _ _ _ _ _ Hf Hk) as (idx & _ & Hl).
    apply (batch_items_values agg). by eapply list_elem_of_lookup_2.
  - destruct (related_cases cfg engine' iid)
      as [Hnil|(item_idx & m' & ids & rec_ids & _ & Hm' & Hsim & HmapM & ->)].
    { by apply in_batch_nil. }
    rewrite Hmdl', Hmdl in Hm'. injection Hm' as <-.
    apply factor_similar_spec in Hsim.
    rewrite Hiim', Hiim in HmapM.
    apply mapM_enumerate_spec in HmapM as [Hnd' Hf]; [|done|by apply NoDup_filter].
    split; [by apply py_slice_to_NoDup|].
    intros x [k Hk]%py_slice_to_elem%list_elem_of_lookup_1.
    destruct (Forall2_lookup_r _ _ _ _ _ Hf Hk) as (idx & _ & Hl).
    apply (batch_items_values agg). by eapply list_elem_of_lookup_2.
  - unfold get_popular_items. rewrite Hpop', Hpop.
    assert ((sort_values S (item_totals fsum agg) false).*1
            ≡ₚ stable_sort Z.leb items) as Hp.
    { rewrite (sort_values_perm S HS). unfold item_totals.
      rewrite (groupby_sum_keys Z.leb), <-list_fmap_compose. done. }
    split.
    + apply py_slice_to_NoDup. by rewrite Hp, stable_sort_perm.
    + intros x Hx%py_slice_to_elem. rewrite Hp, elem_of_stable_sort in Hx.
      by apply (batch_items_values agg).
Qed.

(** The small batch, after a first related-items call. *)
Lemma C10_lists_in_batch_witness :
  let engine' := (get_related_items settings w_engine 100).2 in
  in_batch w_loader w_agg (get_history_rec settings engine' 2)
  ∧ in_batch w_loader w_agg (get_discovery_rec settings engine' 2)
  ∧ in_batch w_loader w_agg (get_related_items settings engine' 300).1
  ∧ in_batch w_loader w_agg (get_popular_items engine' 3).
Proof.
  apply (C10_lists_in_batch settings day_pow Qcsum insertion_argsort (λ _, w_factors)
           w_table w_now w_now w_loader w_agg w_matrix w_engine
           (get_related_items settings w_engine 100).2 2 300 3).
  - apply insertion_argsort_ok.
  - apply w_run_eq.
  - apply steps_related, steps_refl.
Defined.
